(** * Mimori_script: cache, dataset merge, date index and countdown timers

    A shallow embedding of the data-driven core of the widgets:
    - [Birthday] : [cachedFetch] and the two halves of [fetchBirthdays]
      (custom-data merge, month/day lookup structure);
    - [Utils]    : [hasExpired], [calculateTimeLeft], [formatDuration],
      [createCountdownTimer];
    - [Events]   : [processEventPair], [getTimerDisplayText],
      [formatTimeRemaining], [initializeEventTimer], [updateEventTimer],
      [cleanupTimer].

    Modelling conventions.
    - JavaScript numbers are integers ([Z]); instants are milliseconds.
      [Math.floor (a / b)] on non-negative integers is [Z.div], [%] is
      [Z.rem] (sign of the dividend).  The numbers read from the digits
      of a date are doubles: integers rounded to 53 significant bits.
    - A JSON field value is a [JS.value]; nested objects and arrays inside
      a field, and non-integer numbers, are not represented.
    - A JavaScript object used as a dictionary whose iteration order is
      observed ([Object.values]) is an [Obj.t]: its own properties in
      property order.
    - A student record is a finite map from field names to values: its
      own properties.  A property read follows the prototype chain: the
      own properties first, then those of [Object.prototype], which the
      merge can write to. *)

From Stdlib Require Import ZArith NArith Ascii String Lia.
From Stdlib Require Import DecimalString DecimalNat DecimalN DecimalZ.
From stdpp Require Import base option list gmap strings.

Local Open Scope string_scope.
Local Open Scope list_scope.

(** ** JavaScript values *)

Module JS.

Inductive value : Type :=
| JUndefined
| JNull
| JBool (b : bool)
| JNum (n : Z)
| JStr (s : string).

#[global] Instance value_eq_dec : EqDecision value.
Proof. solve_decision. Defined.

(** [ToBoolean] *)
Definition truthy (v : value) : bool :=
  match v with
  | JUndefined | JNull => false
  | JBool b => b
  | JNum n => negb (n =? 0)%Z
  | JStr s => negb (String.eqb s "")
  end.

Definition string_of_nat (n : nat) : string :=
  NilZero.string_of_uint (Nat.to_uint n).

Definition string_of_N (n : N) : string :=
  NilZero.string_of_uint (N.to_uint n).

Definition string_of_Z (n : Z) : string :=
  NilZero.string_of_int (Z.to_int n).

(** [ToString], as applied by template literals and property keys *)
Definition ToString (v : value) : string :=
  match v with
  | JUndefined => "undefined"
  | JNull => "null"
  | JBool true => "true"
  | JBool false => "false"
  | JNum n => string_of_Z n
  | JStr s => s
  end.

(** [a || b] *)
Definition or_else (a b : value) : value := if truthy a then a else b.

(** [Array.prototype.includes] (SameValueZero; no NaN in the model) *)
Definition includes (l : list value) (v : value) : bool :=
  bool_decide (v ∈ l).

End JS.

(** ** Objects as ordered property lists *)

Module Obj.

Definition t (A : Type) : Type := list (string * A).

Definition keys {A} (o : t A) : list string := o.*1.
Definition values {A} (o : t A) : list A := o.*2.

(** [o[k]] on own properties *)
Fixpoint get {A} (k : string) (o : t A) : option A :=
  match o with
  | [] => None
  | (k', v) :: o' => if decide (k' = k) then Some v else get k o'
  end.

(** An array index is a canonical decimal numeral below 2^32 - 1; such
    keys are enumerated first, in ascending numeric order. *)
Definition array_index (k : string) : option N :=
  match NilEmpty.uint_of_string k with
  | Some d =>
      let n := N.of_uint d in
      if decide (JS.string_of_N n = k)
      then if (n <? 4294967295)%N then Some n else None
      else None
  | None => None
  end.

Fixpoint replace {A} (k : string) (v : A) (o : t A) : t A :=
  match o with
  | [] => []
  | (k', v') :: o' =>
      if decide (k' = k) then (k', v) :: o' else (k', v') :: replace k v o'
  end.

Fixpoint insert_index {A} (n : N) (k : string) (v : A) (o : t A) : t A :=
  match o with
  | [] => [(k, v)]
  | (k', v') :: o' =>
      match array_index k' with
      | Some n' =>
          if (n' <? n)%N then (k', v') :: insert_index n k v o'
          else (k, v) :: o
      | None => (k, v) :: o
      end
  end.

(** [o[k] = v]: an existing property keeps its position, a new one is
    created at its place in property order. *)
Definition set {A} (k : string) (v : A) (o : t A) : t A :=
  match get k o with
  | Some _ => replace k v o
  | None =>
      match array_index k with
      | Some n => insert_index n k v o
      | None => o ++ [(k, v)]
      end
  end.

End Obj.

(** ** Birthday.js *)

Module Birthday.

Import JS.

Record cache_config := { DURATION : Z; ENABLED : bool }.

(** [CONFIG.CACHE] *)
Definition CONFIG_CACHE : cache_config :=
  {| DURATION := 3600000; ENABLED := true |}.

Abbreviation record := (gmap string value).

(** [r.f] *)
Definition field (r : record) (f : string) : value :=
  default JUndefined (r !! f).

(** [Object.assign(target, {FamilyName, PersonalName, BirthDay,
    DirectImage})] with the four values read from the custom record *)
Definition assignCustom (target custom : record) : record :=
  <["DirectImage" := field custom "DirectImage"]>
    (<["BirthDay" := field custom "BirthDay"]>
       (<["PersonalName" := field custom "PersonalName"]>
          (<["FamilyName" := field custom "FamilyName"]> target))).

(** The functions every object inherits from [Object.prototype] *)
Definition prototype_members : list string :=
  ["constructor"; "hasOwnProperty"; "isPrototypeOf"; "propertyIsEnumerable";
   "toLocaleString"; "toString"; "valueOf";
   "__defineGetter__"; "__defineSetter__";
   "__lookupGetter__"; "__lookupSetter__"].

(** An object as property reads see it: its own properties, then the
    data properties [proto] that have been put on [Object.prototype] *)
Definition seen (proto r : record) : record := r ∪ proto.

Record merge_state := {
  processedData : Obj.t record;
  warnings : list string;          (* console.warn *)
  prototype : record;              (* data properties written on Object.prototype *)
  members : gmap string record     (* properties written on its member functions *)
}.

Definition customId (n : nat) : string := "DVDOOM_" +:+ string_of_nat n.

Definition nonexistent_warning (studentId : value) : string :=
  "Custom data references nonexistent student ID: " +:+ ToString studentId.

(** What [processedData[studentId]] evaluates to *)
Inductive target :=
| Own (r : record)               (* a record of the working set *)
| ObjectPrototype                (* through the accessor [__proto__] *)
| MemberFunction (k : string)    (* a function inherited from Object.prototype *)
| Inherited (v : value).         (* a data property of Object.prototype *)

Definition lookup (st : merge_state) (key : string) : option target :=
  match Obj.get key (processedData st) with
  | Some r => Some (Own r)
  | None =>
      if decide (key = "__proto__") then Some ObjectPrototype
      else if decide (key ∈ prototype_members) then Some (MemberFunction key)
      else Inherited <$> prototype st !! key
  end.

Definition warn (studentId : value) (st : merge_state) : merge_state :=
  {| processedData := processedData st;
     warnings := warnings st ++ [nonexistent_warning studentId];
     prototype := prototype st;
     members := members st |}.

(** One iteration of [for (const customStudent of customData)] *)
Definition applyCustomStudent (st : merge_state) (customStudent : record)
  : merge_state :=
  let customStudent := seen (prototype st) customStudent in
  let studentId := field customStudent "Id" in
  if truthy studentId then
    match lookup st (ToString studentId) with
    | None => warn studentId st
    | Some (Own targetStudent) =>
        {| processedData :=
             Obj.set (ToString studentId)
               (assignCustom targetStudent customStudent) (processedData st);
           warnings := warnings st;
           prototype := prototype st;
           members := members st |}
    | Some ObjectPrototype =>
        {| processedData := processedData st;
           warnings := warnings st;
           prototype := assignCustom (prototype st) customStudent;
           members := members st |}
    | Some (MemberFunction k) =>
        {| processedData := processedData st;
           warnings := warnings st;
           prototype := prototype st;
           members :=
             <[k := assignCustom (default ∅ (members st !! k)) customStudent]>
               (members st) |}
    | Some (Inherited v) =>
        (* a primitive: [Object.assign] writes on a wrapper object that
           nothing else refers to *)
        if truthy v then st else warn studentId st
    end
  else
    let customId := customId (length (Obj.keys (processedData st))) in
    let created := Obj.set customId ∅ (processedData st) in
    {| processedData :=
         Obj.set customId
           (assignCustom (default ∅ (Obj.get customId created)) customStudent)
           created;
       warnings := warnings st;
       prototype := prototype st;
       members := members st |}.

(** [const processedData = { ...officialData }] followed by the loop, on
    a page whose [Object.prototype] is as the language defines it *)
Definition processCustomData (officialData : Obj.t record)
    (customData : list record) : merge_state :=
  foldl applyCustomStudent
    {| processedData := officialData; warnings := [];
       prototype := ∅; members := ∅ |} customData.

(** *** The month/day lookup structure *)

Record DisplayEntry := { name : string; images : list value }.

Abbreviation Index := (gmap N (gmap N (list DisplayEntry))).

Definition is_digit (c : ascii) : bool :=
  (48 <=? nat_of_ascii c)%nat && (nat_of_ascii c <=? 57)%nat.

(** Every way [\d+] can match at the start of [s], longest first (the
    order in which a backtracking matcher tries them): the digits
    consumed and the rest of the input. *)
Fixpoint digits_plus (s : string) : list (string * string) :=
  match s with
  | EmptyString => []
  | String c r =>
      if is_digit c
      then ((λ p, (String c p.1, p.2)) <$> digits_plus r) ++ [(String c "", r)]
      else []
  end.

Fixpoint first_some {A B} (f : A → option B) (l : list A) : option B :=
  match l with
  | [] => None
  | a :: l' => match f a with Some b => Some b | None => first_some f l' end
  end.

(** [/(\d+)\/(\d+)/] anchored at the start of [s]: the two groups *)
Definition match_here (s : string) : option (string * string) :=
  first_some
    (λ p, match p.2 with
          | String "/" r =>
              match digits_plus r with
              | (d, _) :: _ => Some (p.1, d)
              | [] => None
              end
          | _ => None
          end)
    (digits_plus s).

(** [s.match(/(\d+)\/(\d+)/)]: leftmost match, [None] for [null] *)
Fixpoint regex_match (s : string) : option (string * string) :=
  match match_here s with
  | Some g => Some g
  | None =>
      match s with
      | EmptyString => None
      | String _ r => regex_match r
      end
  end.

(** The number value of a non-negative integer: the nearest double, ties
    to the even significand; [2^1024] stands for [Infinity] *)
Definition Infinity : N := 2 ^ 1024.

Definition to_double (n : N) : N :=
  let size := N.size n in
  if (size <=? 53)%N then n
  else
    let shift := (size - 53)%N in
    let q := N.shiftr n shift in
    let r := (n - N.shiftl q shift)%N in
    let half := N.shiftl 1 (shift - 1) in
    let q' := if (half <? r)%N || ((r =? half)%N && N.odd q)
              then (q + 1)%N else q in
    let v := N.shiftl q' shift in
    if (Infinity <=? v)%N then Infinity else v.

(** [Number] on a run of decimal digits *)
Definition Number (digits : string) : N :=
  match NilEmpty.uint_of_string digits with
  | Some u => to_double (N.of_uint u)
  | None => 0
  end.

Inductive exn :=
| TypeError            (* calling a non-function, reading a property of null *)
| ReferenceError       (* unresolvable identifier *)
| SyntaxError          (* response body is not JSON *)
| NetworkError         (* fetch rejected *)
| HttpError (status : Z).

Inductive outcome (A : Type) :=
| Ok (a : A)
| Throw (e : exn).
Arguments Ok {A} a.
Arguments Throw {A} e.

(** [student.BirthDay?.match(...)] followed by [.map(Number)]: the
    optional chain stops on [undefined] and [null] only; [match] is a
    method of strings. *)
Definition birthdayMatch (BirthDay : value) : outcome (option (N * N)) :=
  match BirthDay with
  | JUndefined | JNull => Ok None
  | JStr s =>
      Ok (match regex_match s with
          | Some (month, day) => Some (Number month, Number day)
          | None => None
          end)
  | JBool _ | JNum _ => Throw TypeError
  end.

Definition defaultImage (student : record) : value :=
  JStr ("https://schaledb.com/images/student/collection/"
          +:+ ToString (field student "Id") +:+ ".webp").

Definition studentData (student : record) : DisplayEntry :=
  {| name := ToString (field student "FamilyName") +:+ " "
               +:+ ToString (field student "PersonalName");
     images := [or_else (field student "DirectImage") (defaultImage student)] |}.

Definition push_image (img : value) (entry : DisplayEntry) : DisplayEntry :=
  {| name := name entry; images := images entry ++ [img] |}.

(** The part of the reducer that works on [acc[month][day]] *)
Definition addToBucket (sd : DisplayEntry) (bucket : list DisplayEntry)
  : list DisplayEntry :=
  match list_find (λ entry, name entry = name sd) bucket with
  | Some (i, existingEntry) =>
      let img := default JUndefined (head (images sd)) in   (* images[0] *)
      if includes (images existingEntry) img then bucket
      else alter (push_image img) i bucket
  | None => bucket ++ [sd]
  end.

(** The callback of [Object.values(processedData).reduce] *)
Definition addStudent (acc : Index) (student : record) : outcome Index :=
  match birthdayMatch (field student "BirthDay") with
  | Throw e => Throw e
  | Ok None => Ok acc
  | Ok (Some (month, day)) =>
      let byDay := default ∅ (acc !! month) in
      let bucket := default [] (byDay !! day) in
      Ok (<[month := <[day := addToBucket (studentData student) bucket]> byDay]> acc)
  end.

Fixpoint reduce (students : list record) (acc : Index) : outcome Index :=
  match students with
  | [] => Ok acc
  | student :: rest =>
      match addStudent acc student with
      | Ok acc' => reduce rest acc'
      | Throw e => Throw e
      end
  end.

Definition buildLookup (processed : Obj.t record) : outcome Index :=
  reduce (Obj.values processed) ∅.

(** [fetchBirthdays] once both fetches have resolved: the reducer reads
    the records' fields through the prototype chain as the loop left it *)
Definition fetchBirthdays (officialData : Obj.t record)
    (customData : list record) : outcome Index :=
  let st := processCustomData officialData customData in
  buildLookup (prod_map id (seen (prototype st)) <$> processedData st).

Definition bucket_at (idx : Index) (month day : N) : list DisplayEntry :=
  default [] (default ∅ (idx !! month) !! day).

(** *** cachedFetch *)

Section Fetch.

(** The parsed JSON payload *)
Context {A : Type}.

Record CacheEntry := { timestamp : Z; data : A }.

(** A response: its status and what [response.json()] resolves to
    ([None] when the body is not JSON) *)
Record response := { status : Z; json : option A }.

(** [response.ok] *)
Definition ok (r : response) : bool :=
  (200 <=? status r)%Z && (status r <=? 299)%Z.

Inductive fetched :=
| Rejected
| Resolved (r : response).

Record world := {
  dataCache : gmap string CacheEntry;
  clock : Z;                            (* Date.now() *)
  requests : list (string * string);    (* the calls made to fetch *)
  console_error : list exn
}.

(** The network: for a request issued at some instant, what the
    promise settles to and how long that takes. *)
Variable network : string → string → Z → fetched * N.

Variable CACHE : cache_config.

Definition fetch (url options : string) (w : world) : fetched * world :=
  let (res, latency) := network url options (clock w) in
  (res,
   {| dataCache := dataCache w;
      clock := clock w + Z.of_N latency;
      requests := requests w ++ [(url, options)];
      console_error := console_error w |}).

Definition cache_delete (key : string) (w : world) : world :=
  {| dataCache := delete key (dataCache w); clock := clock w;
     requests := requests w; console_error := console_error w |}.

Definition cache_set (key : string) (e : CacheEntry) (w : world) : world :=
  {| dataCache := <[key := e]> (dataCache w); clock := clock w;
     requests := requests w; console_error := console_error w |}.

(** The [catch] block: log and re-throw *)
Definition rethrow (e : exn) (w : world) : outcome A * world :=
  (Throw e,
   {| dataCache := dataCache w; clock := clock w;
      requests := requests w; console_error := console_error w ++ [e] |}).

(** The [try] block *)
Definition fetchAndStore (cacheKey url options : string) (w : world)
  : outcome A * world :=
  let (res, w1) := fetch url options w in
  match res with
  | Rejected => rethrow NetworkError w1
  | Resolved r =>
      if ok r then
        match json r with
        | Some d =>
            (Ok d, cache_set cacheKey {| timestamp := clock w1; data := d |} w1)
        | None => rethrow SyntaxError w1
        end
      else rethrow (HttpError (status r)) w1
  end.

(** [options] is given by its [JSON.stringify] text (["{}"] by
    default), which is all the cache key uses of it. *)
Definition cachedFetch (url options : string) (w : world)
  : outcome A * world :=
  if negb (ENABLED CACHE) then
    let (res, w1) := fetch url options w in
    match res with
    | Rejected => (Throw NetworkError, w1)
    | Resolved r =>
        (match json r with Some d => Ok d | None => Throw SyntaxError end, w1)
    end
  else
    let cacheKey := url +:+ options in
    match dataCache w !! cacheKey with
    | Some cachedData =>
        if (clock w - timestamp cachedData <? DURATION CACHE)%Z
        then (Ok (data cachedData), w)
        else fetchAndStore cacheKey url options (cache_delete cacheKey w)
    | None => fetchAndStore cacheKey url options w
    end.

End Fetch.

Arguments CacheEntry : clear implicits.
Arguments response : clear implicits.
Arguments fetched : clear implicits.
Arguments world : clear implicits.

End Birthday.

(** ** Timers and the document *)

Module Browser.

Abbreviation handle := nat.

Inductive callback :=
| NotAFunction                  (* [setInterval(1000)]: no function to call *)
| UpdateTimer (env : nat)       (* Utils.js: the [updateTimer] closure *)
| UpdateEventTimer (startTime endTime : Z) (timerId : handle).
                              (* Events2.js: [() => updateEventTimer(startTime, endTime, timerId)] *)

(** The variables captured by an [updateTimer] closure; [timerId] is
  declared with [let] and reassigned. *)
Record closure := {
c_startTime : Z;
c_endTime : Z;
c_elementId : string;
c_timerId : handle
}.

(** What [setTimeout] in [initializeEventTimer] will run *)
Record timeout := {
t_startTime : Z;
t_endTime : Z;
t_timerIds : nat                (* the array passed as [timerIds] *)
}.

Inductive event :=
| Invoked (h : handle)                       (* an interval ran its update function *)
| Recomputed (displayText : string)          (* the label was recomputed *)
| Uncaught (e : Birthday.exn).

Record state := {
next_handle : handle;
intervals : gmap handle callback;          (* active intervals *)
timeouts : gmap handle timeout;            (* pending timeouts *)
document : gmap string string;             (* element id ↦ textContent *)
arrays : gmap nat (list handle);           (* the arrays used as [timerIds] *)
closures : gmap nat closure;
unload : list (handle * nat);              (* unload listeners *)
global_timerIds : option nat;              (* a global binding named [timerIds], if the page has one *)
trace : list event
}.

Definition with_intervals (f : gmap handle callback → gmap handle callback)
  (st : state) : state :=
{| next_handle := next_handle st; intervals := f (intervals st);
   timeouts := timeouts st; document := document st; arrays := arrays st;
   closures := closures st; unload := unload st;
   global_timerIds := global_timerIds st; trace := trace st |}.

Definition with_document (f : gmap string string → gmap string string)
  (st : state) : state :=
{| next_handle := next_handle st; intervals := intervals st;
   timeouts := timeouts st; document := f (document st); arrays := arrays st;
   closures := closures st; unload := unload st;
   global_timerIds := global_timerIds st; trace := trace st |}.

Definition with_arrays (f : gmap nat (list handle) → gmap nat (list handle))
  (st : state) : state :=
{| next_handle := next_handle st; intervals := intervals st;
   timeouts := timeouts st; document := document st; arrays := f (arrays st);
   closures := closures st; unload := unload st;
   global_timerIds := global_timerIds st; trace := trace st |}.

Definition with_closures (f : gmap nat closure → gmap nat closure)
  (st : state) : state :=
{| next_handle := next_handle st; intervals := intervals st;
   timeouts := timeouts st; document := document st; arrays := arrays st;
   closures := f (closures st); unload := unload st;
   global_timerIds := global_timerIds st; trace := trace st |}.

Definition with_timeouts (f : gmap handle timeout → gmap handle timeout)
  (st : state) : state :=
{| next_handle := next_handle st; intervals := intervals st;
   timeouts := f (timeouts st); document := document st; arrays := arrays st;
   closures := closures st; unload := unload st;
   global_timerIds := global_timerIds st; trace := trace st |}.

Definition with_unload (l : handle * nat) (st : state) : state :=
{| next_handle := next_handle st; intervals := intervals st;
   timeouts := timeouts st; document := document st; arrays := arrays st;
   closures := closures st; unload := unload st ++ [l];
   global_timerIds := global_timerIds st; trace := trace st |}.

Definition log (e : event) (st : state) : state :=
{| next_handle := next_handle st; intervals := intervals st;
   timeouts := timeouts st; document := document st; arrays := arrays st;
   closures := closures st; unload := unload st;
   global_timerIds := global_timerIds st; trace := trace st ++ [e] |}.

Definition fresh (st : state) : handle * state :=
(next_handle st,
 {| next_handle := S (next_handle st); intervals := intervals st;
    timeouts := timeouts st; document := document st; arrays := arrays st;
    closures := closures st; unload := unload st;
    global_timerIds := global_timerIds st; trace := trace st |}).

Definition setInterval (cb : callback) (st : state) : handle * state :=
let (h, st1) := fresh st in (h, with_intervals (insert h cb) st1).

Definition clearInterval (h : handle) (st : state) : state :=
with_intervals (delete h) st.

Definition setTimeout (cb : timeout) (st : state) : handle * state :=
let (h, st1) := fresh st in (h, with_timeouts (insert h cb) st1).

Definition getElementById (id : string) (st : state) : option string :=
document st !! id.

(** [timerElement.textContent = text] *)
Definition set_textContent (id text : string) (st : state) : state :=
with_document (insert id text) st.

(** [timerIds.push(h)] *)
Definition push (arr : nat) (h : handle) (st : state) : state :=
with_arrays (λ m, <[arr := default [] (m !! arr) ++ [h]]> m) st.

(** [const i = l.indexOf(h); if (i > -1) l.splice(i, 1)] *)
Fixpoint remove_first (h : handle) (l : list handle) : list handle :=
match l with
| [] => []
| x :: l' => if decide (x = h) then l' else x :: remove_first h l'
end.

Definition tracked (arr : nat) (st : state) : list handle :=
default [] (arrays st !! arr).

End Browser.

(** ** Utils.js *)

Module Utils.

Import JS Browser.

(** A time given as a Unix timestamp or as a formatted date string *)
Inductive time_value :=
| TimeString (s : string)
| TimeNumber (n : Z).

Section Dates.

(** [new Date(s).getTime()], [None] standing for [NaN] *)
Variable Date_parse : string → option Z.

Definition expirationTime (endTime : time_value) : option Z :=
  match endTime with
  | TimeString s => Date_parse s
  | TimeNumber n => Some (if (n <? 10 ^ 12)%Z then (n * 1000)%Z else n)
  end.

Definition hasExpired (now : Z) (endTime : time_value) : bool :=
  match expirationTime endTime with
  | Some t => (t <=? now)%Z
  | None => false               (* NaN <= now *)
  end.

End Dates.

Definition formatDuration (duration : Z) : string :=
  let days := (duration / (1000 * 60 * 60 * 24))%Z in
  let hours := (Z.rem duration (1000 * 60 * 60 * 24) / (1000 * 60 * 60))%Z in
  let minutes := (Z.rem duration (1000 * 60 * 60) / (1000 * 60))%Z in
  (if (0 <? days)%Z then string_of_Z days +:+ "d " else "")
    +:+ string_of_Z hours +:+ "h " +:+ string_of_Z minutes +:+ "m".

(** [calculateTimeLeft] with the three instants resolved to numbers *)
Definition calculateTimeLeft (now start endTime : Z) : string :=
  if (now <? start)%Z then "Starts in: " +:+ formatDuration (start - now)
  else if (now <? endTime)%Z then "Time Left: " +:+ formatDuration (endTime - now)
  else "Event Ended".

(** The [updateTimer] closure with environment [env], run at [now] *)
Definition updateTimer (env : nat) (now : Z) (st : state) : state :=
  match closures st !! env with
  | None => st
  | Some c =>
      let timerElement := getElementById (c_elementId c) st in
      let displayText := calculateTimeLeft now (c_startTime c) (c_endTime c) in
      let st1 := log (Recomputed displayText) st in
      let st2 :=
        match timerElement with
        | Some _ => set_textContent (c_elementId c) displayText st1
        | None => clearInterval (c_timerId c) st1
        end in
      if decide (displayText = "Event Ended")
      then clearInterval (c_timerId c) st2
      else st2
  end.

Definition createCountdownTimer (startTime endTime : Z) (elementId : string)
    (timerIds : nat) (now : Z) (st : state) : state :=
  (* let timerId = setInterval(1000); *)
  let (h0, st1) := setInterval NotAFunction st in
  let env := h0 in
  let st2 :=
    with_closures
      (insert env {| c_startTime := startTime; c_endTime := endTime;
                     c_elementId := elementId; c_timerId := h0 |}) st1 in
  (* updateTimer(); *)
  let st3 := updateTimer env now st2 in
  (* timerId = setInterval(updateTimer, 1000); *)
  let (h1, st4) := setInterval (UpdateTimer env) st3 in
  let st5 :=
    with_closures
      (insert env {| c_startTime := startTime; c_endTime := endTime;
                     c_elementId := elementId; c_timerId := h1 |}) st4 in
  (* timerIds.push(timerId); *)
  push timerIds h1 st5.

End Utils.

(** ** Events2.js *)

Module Events.

Import JS Browser Utils.

Definition formatTimeRemaining (duration : Z) : string :=
  let days := (duration / (1000 * 60 * 60 * 24))%Z in
  let hours := (Z.rem duration (1000 * 60 * 60 * 24) / (1000 * 60 * 60))%Z in
  let minutes := (Z.rem duration (1000 * 60 * 60) / (1000 * 60))%Z in
  (if (0 <? days)%Z then string_of_Z days +:+ "d " else "")
    +:+ string_of_Z hours +:+ "h " +:+ string_of_Z minutes +:+ "m".

Definition getTimerDisplayText (currentTime startTime endTime : Z) : string :=
  if (currentTime <? startTime)%Z
  then "Starts in: " +:+ formatTimeRemaining (startTime - currentTime)
  else if (currentTime <? endTime)%Z
  then "Time Left: " +:+ formatTimeRemaining (endTime - currentTime)
  else "Event Ended".

Definition cleanupTimer (timerId : handle) (timerIds : nat) (st : state)
  : state :=
  with_arrays (λ m, <[timerIds := remove_first timerId (default [] (m !! timerIds))]> m)
    (clearInterval timerId st).

(** The call [cleanupTimer(timerId, timerIds)] written inside
    [updateEventTimer]: [timerIds] is neither a parameter of that function
    nor a binding of the module, so the identifier is looked up in the
    global scope and the call is not made when it is unbound. *)
Definition cleanup_from_updateEventTimer (timerId : handle) (st : state)
  : state :=
  match global_timerIds st with
  | Some timerIds => cleanupTimer timerId timerIds st
  | None => log (Uncaught Birthday.ReferenceError) st
  end.

(** [updateEventTimer(startTime, endTime, timerId)] as its one caller
    invokes it: [timerId] is the interval handle, a number, which
    [getElementById] converts to a string. *)
Definition updateEventTimer (startTime endTime : Z) (timerId : handle)
    (now : Z) (st : state) : state :=
  match getElementById (string_of_nat timerId) st with
  | None => cleanup_from_updateEventTimer timerId st
  | Some _ =>
      let displayText := getTimerDisplayText now startTime endTime in
      let st1 :=
        set_textContent (string_of_nat timerId) displayText
          (log (Recomputed displayText) st) in
      if decide (displayText = "Event Ended")
      then cleanup_from_updateEventTimer timerId st1
      else st1
  end.

(** [initializeEventTimer]: only schedules the set-up.  The element id
    it receives as [timerId] is shadowed by the [const timerId] of the
    scheduled function and is never read. *)
Definition initializeEventTimer (startTime endTime : Z) (timerId : string)
    (timerIds : nat) (st : state) : state :=
  (setTimeout {| t_startTime := startTime; t_endTime := endTime;
                 t_timerIds := timerIds |} st).2.

(** The function given to [setTimeout], when it runs *)
Definition run_timeout (t : timeout) (st : state) : state :=
  (* const timerId = setInterval(() => updateEventTimer(startTime, endTime, timerId), ...) *)
  let h := next_handle st in
  let (timerId, st1) :=
    setInterval (UpdateEventTimer (t_startTime t) (t_endTime t) h) st in
  (* timerIds.push(timerId) *)
  let st2 := push (t_timerIds t) timerId st1 in
  (* window.addEventListener('unload', () => cleanupTimer(timerId, timerIds)) *)
  with_unload (timerId, t_timerIds t) st2.

Record eventData := {
  event : Z;
  start : time_value;
  end_ : time_value
}.

Section Processing.

Variable Date_parse : string → option Z.

(** The card built by [generateEventDisplay] for an event (templating) *)
Variable eventCard : string → eventData → string.

(** The instant [new Date(formatDate(t)).getTime()] a timer is given *)
Variable displayedInstant : time_value → Z.

Record processing := {
  innerEventsCell : string;
  console_log : list string;
  page : state
}.

(** One iteration of the loop of [processEventPair] *)
Definition processEvent (timerIds : nat) (now : Z) (p : processing)
    (entry : string * eventData) : processing :=
  let (eventNum, eventData) := entry in
  if hasExpired Date_parse now (end_ eventData) then
    {| innerEventsCell := innerEventsCell p;
       console_log := console_log p
           ++ ["Event has expired, skipping display " +:+ eventNum];
       page := page p |}
  else
    {| innerEventsCell := innerEventsCell p +:+ eventCard eventNum eventData;
       console_log := console_log p;
       page := initializeEventTimer (displayedInstant (start eventData))
                 (displayedInstant (end_ eventData))
                 ("event-timer-" +:+ eventNum) timerIds (page p) |}.

Definition processEventPair (eventEntries : list (string * eventData))
    (timerIds : nat) (now : Z) (st : state) : processing :=
  foldl (processEvent timerIds now)
    {| innerEventsCell := ""; console_log := []; page := st |} eventEntries.

End Processing.

End Events.

(** ** The event loop: what runs when a timer fires *)

Module EventLoop.

Import Browser.

(** Interval [h] fires at instant [now]; a cleared interval does not run. *)
Definition tick (h : handle) (now : Z) (st : state) : state :=
  match intervals st !! h with
  | None => st
  | Some NotAFunction => st
  | Some (UpdateTimer env) => Utils.updateTimer env now (log (Invoked h) st)
  | Some (UpdateEventTimer startTime endTime timerId) =>
      Events.updateEventTimer startTime endTime timerId now (log (Invoked h) st)
  end.

(** Timeout [h] fires (once). *)
Definition expire (h : handle) (st : state) : state :=
  match timeouts st !! h with
  | None => st
  | Some t => Events.run_timeout t (with_timeouts (delete h) st)
  end.

Definition initial : state :=
  {| next_handle := 1; intervals := ∅; timeouts := ∅; document := ∅;
     arrays := ∅; closures := ∅; unload := []; global_timerIds := None;
     trace := [] |}.

End EventLoop.

(** ** Statements about the merge *)

Module MergeSpec.

Import JS Birthday.

(** The working set once the custom records of [seen] have been processed *)
Definition working (officialData : Obj.t record) (seen : list record)
  : Obj.t record :=
  processedData (processCustomData officialData seen).

(** [c] carries the identifier whose property key is [k] *)
Definition carries (c : record) (k : string) : Prop :=
  truthy (field c "Id") = true ∧ ToString (field c "Id") = k.


Definition custom_fields : list string :=
  ["FamilyName"; "PersonalName"; "BirthDay"; "DirectImage"].



(** A key of the form the merge generates *)
Definition is_synthetic (k : string) : bool := String.prefix "DVDOOM_" k.

(** No official key lies in the namespace of generated keys *)
Definition namespace_free (officialData : Obj.t record) : bool :=
  forallb (λ k, negb (is_synthetic k)) (Obj.keys officialData).

(** Generated keys in use are numbered below the number of keys *)
Definition generated_below (o : Obj.t record) : Prop :=
  ∀ n, (length (Obj.keys o) ≤ n)%nat → Obj.get (customId n) o = None.




(** The loop puts nothing but the four fields on Object.prototype *)
Definition prototype_fields_only (st : merge_state) : Prop :=
  ∀ f, f ∉ custom_fields → prototype st !! f = None.




End MergeSpec.

(** ** Statements about the lookup structure *)

Module IndexSpec.

Import JS Birthday.

Fixpoint all_digits (s : string) : bool :=
  match s with
  | EmptyString => true
  | String c r => is_digit c && all_digits r
  end.

(** A non-empty run of decimal digits *)
Definition digit_run (s : string) : Prop := s ≠ "" ∧ all_digits s = true.

(** [s] contains digits, a slash, digits; [month] and [day] are two such
    runs around a slash. *)
Definition occurs_in (month day s : string) : Prop :=
  ∃ pre post, s = pre +:+ month +:+ "/" +:+ day +:+ post
              ∧ digit_run month ∧ digit_run day.

Definition has_date_pattern (s : string) : Prop :=
  ∃ month day, occurs_in month day s.

(** [s] begins with digits, a slash, digits *)
Definition anchored (s : string) : Prop :=
  ∃ month day post, s = month +:+ "/" +:+ day +:+ post
                    ∧ digit_run month ∧ digit_run day.

Definition starts_with_digit (s : string) : bool :=
  match s with
  | EmptyString => false
  | String c _ => is_digit c
  end.

(** [month]/[day] is the leftmost occurrence of the pattern in [s], with
    all the digits that follow the slash. *)
Definition leftmost_in (month day s : string) : Prop :=
  ∃ pre post,
    s = pre +:+ month +:+ "/" +:+ day +:+ post
    ∧ digit_run month ∧ digit_run day
    ∧ starts_with_digit post = false
    ∧ ∀ p1 p2, pre = p1 +:+ p2 → p2 ≠ "" →
               ¬ anchored (p2 +:+ month +:+ "/" +:+ day +:+ post).

(** The date field is absent, or a string without the pattern *)
Definition date_absent_or_unparsable (student : record) : Prop :=
  match field student "BirthDay" with
  | JUndefined | JNull => True
  | JStr s => ¬ has_date_pattern s
  | JBool _ | JNum _ => False
  end.

(** The date field, when present, is a string *)
Definition date_is_text (student : record) : Prop :=
  match field student "BirthDay" with
  | JBool _ | JNum _ => False
  | JUndefined | JNull | JStr _ => True
  end.

(** The date field is a string whose leftmost match reads [(month, day)] *)
Definition dated (student : record) (month day : N) : Prop :=
  birthdayMatch (field student "BirthDay") = Ok (Some (month, day)).

(** Calendar ranges *)
Definition within_calendar (idx : Index) : Prop :=
  ∀ month byDay, idx !! month = Some byDay →
    (1 ≤ month ≤ 12)%N
    ∧ ∀ day bucket, byDay !! day = Some bucket → (1 ≤ day ≤ 31)%N.

(** No two entries of a bucket share a name, no entry lists an image twice *)
Definition bucket_ok (bucket : list DisplayEntry) : Prop :=
  NoDup (name <$> bucket) ∧ Forall (λ entry, NoDup (images entry)) bucket.

(** [idx[month]?.[day]] *)
Definition bucket_lookup (idx : Index) (month day : N)
  : option (list DisplayEntry) :=
  idx !! month ≫= λ byDay, byDay !! day.

Definition index_ok (idx : Index) : Prop :=
  ∀ month day bucket,
    bucket_lookup idx month day = Some bucket → bucket ≠ [] ∧ bucket_ok bucket.

(** Adding an image at the end unless it is already listed *)
Definition add_image (img : value) (imgs : list value) : list value :=
  if decide (img ∈ imgs) then imgs else imgs ++ [img].

(** The list without its repetitions: each element once, at the place
    where it first comes *)
Fixpoint first_occurrences {A} `{EqDecision A} (l : list A) : list A :=
  match l with
  | [] => []
  | x :: l' => x :: filter (λ y, y ≠ x) (first_occurrences l')
  end.

(** The display name of a record and the image it brings *)
Definition brings (student : record) : string * value :=
  (ToString (field student "FamilyName") +:+ " "
     +:+ ToString (field student "PersonalName"),
   or_else (field student "DirectImage") (defaultImage student)).

(** The date of the record is read as [(month, day)] *)
Definition dated_at (month day : N) (student : record) : bool :=
  match birthdayMatch (field student "BirthDay") with
  | Ok (Some (m, d)) => (m =? month)%N && (d =? day)%N
  | _ => false
  end.

(** One entry per name, in the order in which the names first come, each
    with the images brought under its name: every image once, in the
    order in which the images first come *)
Definition grouped (brought : list (string * value)) : list DisplayEntry :=
  (λ nm, {| name := nm;
            images := first_occurrences (filter (λ p, p.1 = nm) brought).*2 |})
    <$> first_occurrences brought.*1.

(** The bucket the records dated [(month, day)] are to make *)
Definition bucket_of (students : list record) (month day : N)
  : list DisplayEntry :=
  grouped (brings <$> filter (λ student, dated_at month day student = true) students).

End IndexSpec.

(** ** Statements about the cache and the countdown *)

Module CacheSpec.

Import Birthday.

(** What a load yields: the parsed body of a 2xx response, a failure
    otherwise *)
Definition load_result {A} (res : fetched A) : outcome A :=
  match res with
  | Rejected => Throw NetworkError
  | Resolved r =>
      if ok r then
        match json r with
        | Some d => Ok d
        | None => Throw SyntaxError
        end
      else Throw (HttpError (status r))
  end.

Definition is_failure {A} (o : outcome A) : Prop :=
  match o with
  | Ok _ => False
  | Throw _ => True
  end.

End CacheSpec.

Module CountdownSpec.

Import JS.

(** Days, hours and minutes by floor division; no days when there are
    none *)
Definition duration_text (ms : Z) : string :=
  let days := (ms / 86400000)%Z in
  let hours := ((ms / 3600000) mod 24)%Z in
  let minutes := ((ms / 60000) mod 60)%Z in
  (if (days =? 0)%Z then "" else string_of_Z days +:+ "d ")
    +:+ string_of_Z hours +:+ "h " +:+ string_of_Z minutes +:+ "m".

End CountdownSpec.

(** ** Sample data *)

Module Samples.

Import JS Birthday.

Definition official_A : Obj.t record :=
  [("A", {[ "Id" := JStr "A"; "FamilyName" := JStr "X" ]})].

Definition custom_Y : record := {[ "Id" := JStr "A"; "FamilyName" := JStr "Y" ]}.
Definition custom_Z : record := {[ "Id" := JStr "A"; "FamilyName" := JStr "Z" ]}.

(** A custom record without identifier *)
Definition custom_W : record :=
  {[ "FamilyName" := JStr "W"; "BirthDay" := JStr "3/5" ]}.

Definition custom_unknown : record :=
  {[ "Id" := JStr "unknown-999"; "FamilyName" := JStr "Q" ]}.

(** Custom records whose identifier names an inherited property *)
Definition custom_proto : record :=
  {[ "Id" := JStr "__proto__"; "PersonalName" := JStr "R" ]}.

Definition custom_toString : record :=
  {[ "Id" := JStr "toString"; "FamilyName" := JStr "T" ]}.



Definition alice (img : string) : record :=
  {[ "FamilyName" := JStr "Alice"; "PersonalName" := JStr "Smith";
     "BirthDay" := JStr "3/5"; "DirectImage" := JStr img ]}.

Definition alices : Obj.t record :=
  [("10000", alice "img1"); ("10001", alice "img2"); ("10002", alice "img1")].

Definition alice_index : Index :=
  match buildLookup alices with
  | Ok idx => idx
  | Throw _ => ∅
  end.

(** A record whose date is written year first *)
Definition dated_2024 : Obj.t record :=
  [("10000", {[ "FamilyName" := JStr "A"; "PersonalName" := JStr "B";
                "BirthDay" := JStr "2024/12/25" ]})].

Definition index_2024 : Index :=
  match buildLookup dated_2024 with
  | Ok idx => idx
  | Throw _ => ∅
  end.

(** A cache holding one entry, stored at instant 1000 *)
Definition cached_world (now : Z) : world nat :=
  {| dataCache := {[ "u{}" := {| timestamp := 1000; data := 7%nat |} ]};
     clock := now; requests := []; console_error := [] |}.

(** A network answering every request after 5 ms *)
Definition answers (status : Z) (body : option nat)
  : string → string → Z → fetched nat * N :=
  λ _ _ _, (Resolved {| status := status; json := body |}, 5%N).

Definition CACHE_DISABLED : cache_config :=
  {| DURATION := 3600000; ENABLED := false |}.

(** Pages for the timers: one element, one array of timer ids *)
Definition page_with (id : string) : Browser.state :=
  {| Browser.next_handle := 1; Browser.intervals := ∅; Browser.timeouts := ∅;
     Browser.document := {[ id := "" ]}; Browser.arrays := {[ 0%nat := [] ]};
     Browser.closures := ∅; Browser.unload := [];
     Browser.global_timerIds := None; Browser.trace := [] |}.

(** The element is taken out of the document. *)
Definition detach (id : string) (st : Browser.state) : Browser.state :=
  Browser.with_document (delete id) st.

(** Utils.js: a countdown on element "t1", created at instant 0 for the
    window 1000..2000; the element is then removed. *)
Definition utils_created : Browser.state :=
  Utils.createCountdownTimer 1000 2000 "t1" 0 0 (page_with "t1").

Definition utils_after_tick : Browser.state :=
  EventLoop.tick 2 500 (detach "t1" utils_created).

(** Events2.js: a timer for element "event-timer-1", whose set-up timeout
    has run; the element stays in the document. *)
Definition events_started : Browser.state :=
  EventLoop.expire 1
    (Events.initializeEventTimer 1000 2000 "event-timer-1" 0
       (page_with "event-timer-1")).

Definition events_after_tick : Browser.state :=
  EventLoop.tick 2 500 events_started.

Definition events_after_two_ticks : Browser.state :=
  EventLoop.tick 2 1500 events_after_tick.

(** Dates are not parsed in the samples. *)
Definition no_dates : string → option Z := λ _, None.

Definition plain_card : string → Events.eventData → string :=
  λ eventNum _, "<" +:+ eventNum +:+ ">".

Definition ended_at (t : Z) : Events.eventData :=
  {| Events.event := 801; Events.start := Utils.TimeNumber 0;
     Events.end_ := Utils.TimeNumber t |}.

End Samples.

(** ** Birthday.js: what is made of the lookup structure *)

Module BirthdayView.

Import JS Birthday.

(** [!birthdays || Object.keys(birthdays).length === 0], the test after
    which [initBirthdayAndClock] throws 'No birthday data available' *)
Definition noBirthdayData (birthdays : Index) : bool :=
  bool_decide (size birthdays = 0%nat).

(** The element of an array as [Array.prototype.join] writes it *)
Definition join_item (v : value) : string :=
  match v with
  | JUndefined | JNull => ""
  | _ => ToString v
  end.

(** [l.join(sep)] *)
Fixpoint join (sep : string) (l : list string) : string :=
  match l with
  | [] => ""
  | [x] => x
  | x :: l' => x +:+ sep +:+ join sep l'
  end.

(** [s.split(c)] for a separator of one character *)
Fixpoint split (c : ascii) (s : string) : list string :=
  match s with
  | EmptyString => [""]
  | String a r =>
      if Ascii.eqb a c then "" :: split c r
      else match split c r with
           | x :: xs => String a x :: xs
           | [] => [String a ""]
           end
  end.

(** How many times a character occurs *)
Fixpoint count_char (c : ascii) (s : string) : nat :=
  match s with
  | EmptyString => 0
  | String a r => (if Ascii.eqb a c then 1 else 0) + count_char c r
  end.

(** [data-images="${student.images.join(',')}"] *)
Definition data_images (entry : DisplayEntry) : string :=
  join "," (join_item <$> images entry).

(** [[...new Set(l)]]: first occurrences, in order *)
Definition unique {A} `{EqDecision A} (l : list A) : list A :=
  foldl (λ seen x, if decide (x ∈ seen) then seen else seen ++ [x]) [] l.

(** [setupImageCyclers] on one container: the list [setupImageCycling]
    is started with, if it is started.  [valid] says whether [new URL]
    accepts a string. *)
Definition cyclerImages (valid : string → bool) (dataset_images : option string)
  : option (list string) :=
  match dataset_images with
  | None => None
  | Some attr =>
      let images := split "," attr in
      if (1 <? length images)%nat then
        let uniqueImages := filter (λ url, valid url = true) (unique images) in
        if (1 <? length uniqueImages)%nat then Some uniqueImages else None
      else None
  end.

(** The image a record brings, and the name it is listed under *)
Definition image_of (student : record) : value :=
  or_else (field student "DirectImage") (defaultImage student).

Definition name_of (student : record) : string := name (studentData student).

(** Some entry of the bucket has this name and lists this image *)
Definition lists (bucket : list DisplayEntry) (nm : string) (img : value) : Prop :=
  ∃ entry, entry ∈ bucket ∧ name entry = nm ∧ img ∈ images entry.

End BirthdayView.

(** ** Time passing between two calls *)

Module Clock.

Import Birthday.

(** The same world, [elapsed] milliseconds later *)
Definition later {A} (elapsed : Z) (w : world A) : world A :=
  {| dataCache := dataCache w; clock := (clock w + elapsed)%Z;
     requests := requests w; console_error := console_error w |}.

End Clock.

(** ** Utils.js: dates given to [calculateTimeLeft], text helpers *)

Module UtilsDates.

Import JS Utils.

Section Dates.

Variable Date_parse : string → option Z.

(** [new Date(t).getTime()]: a number is an instant in milliseconds when
    within the range of dates, a string is parsed; [None] stands for
    [NaN] *)
Definition getTime (t : time_value) : option Z :=
  match t with
  | TimeString s => Date_parse s
  | TimeNumber n =>
      if (Z.abs n <=? 8640000000000000)%Z then Some n else None
  end.

(** [a < b] where [b] may be [NaN] *)
Definition before (a : Z) (b : option Z) : bool :=
  match b with
  | Some b => (a <? b)%Z
  | None => false
  end.

(** [calculateTimeLeft(startTime, endTime)] at instant [now] *)
Definition calculateTimeLeft (now : Z) (startTime endTime : time_value)
  : string :=
  let start := getTime startTime in
  let endT := getTime endTime in
  if before now start
  then "Starts in: " +:+ formatDuration (default 0%Z start - now)
  else if before now endT
  then "Time Left: " +:+ formatDuration (default 0%Z endT - now)
  else "Event Ended".

End Dates.

Definition is_upper (c : ascii) : bool :=
  (65 <=? nat_of_ascii c)%nat && (nat_of_ascii c <=? 90)%nat.

Definition is_lower (c : ascii) : bool :=
  (97 <=? nat_of_ascii c)%nat && (nat_of_ascii c <=? 122)%nat.

(** Case conversion of the letters A-Z and a-z; the conversions of
    JavaScript agree with these on strings of ASCII characters *)
Definition upper_char (c : ascii) : ascii :=
  if is_lower c then ascii_of_nat (nat_of_ascii c - 32) else c.

Definition lower_char (c : ascii) : ascii :=
  if is_upper c then ascii_of_nat (nat_of_ascii c + 32) else c.

Fixpoint toUpperCase (s : string) : string :=
  match s with
  | EmptyString => EmptyString
  | String c r => String (upper_char c) (toUpperCase r)
  end.

Fixpoint toLowerCase (s : string) : string :=
  match s with
  | EmptyString => EmptyString
  | String c r => String (lower_char c) (toLowerCase r)
  end.

Fixpoint is_ascii (s : string) : bool :=
  match s with
  | EmptyString => true
  | String c r => (nat_of_ascii c <? 128)%nat && is_ascii r
  end.

(** [capitalizeFirstLetter]: [!string] holds of the empty string *)
Definition capitalizeFirstLetter (s : string) : string :=
  match s with
  | EmptyString => s
  | String c r => toUpperCase (String c "") +:+ toLowerCase r
  end.

End UtilsDates.

(** ** Runs of the event loop *)

Module Runs.

Import Browser.

(** Interval [h] fires at each of the instants, in turn. *)
Definition ticks (h : handle) (instants : list Z) (st : state) : state :=
  foldl (λ st now, EventLoop.tick h now st) st instants.

End Runs.

(** ** Events2.js: event details, style strings, the events section,
    performance samples *)

Module EventsView.

Import JS Browser Utils Events UtilsDates BirthdayView.

(** [key.replace(/([A-Z])/g, '-$1')] *)
Fixpoint dash_upper (key : string) : string :=
  match key with
  | EmptyString => EmptyString
  | String c r =>
      if is_upper c then String "-" (String c (dash_upper r))
      else String c (dash_upper r)
  end.

(** The property name written by [getStyleString] *)
Definition cssKey (key : string) : string := toLowerCase (dash_upper key).

(** [getStyleString(styles)], [styles] given by its entries *)
Definition getStyleString (styles : list (string * string)) : string :=
  join "; " ((λ kv, cssKey kv.1 +:+ ": " +:+ kv.2) <$> styles).

(** [s.slice(n)] *)
Fixpoint slice (n : nat) (s : string) : string :=
  match n, s with
  | O, _ => s
  | S n', String _ r => slice n' r
  | S _, EmptyString => EmptyString
  end.

Record localizationData := { EventName : option (gmap string string) }.

Record eventDetails := {
  eventId : string;
  eventName : string;
  startTime : string;
  endTime : string
}.

(** [localizationData.EventName?.[eventId] || 'Unknown Event'] *)
Definition localizedName (loc : localizationData) (eventId : string) : string :=
  match EventName loc ≫= (λ names, names !! eventId) with
  | Some n => if String.eqb n "" then "Unknown Event" else n
  | None => "Unknown Event"
  end.

Section Details.

(** [formatDate] (time zone formatting) *)
Variable formatDate : time_value → string.

Definition processEventDetails (eventData : eventData) (loc : localizationData)
  : eventDetails :=
  let fullEventId := string_of_Z (event eventData) in
  let isRerun := String.prefix "10" fullEventId in
  let eventId := if isRerun then slice 2 fullEventId else fullEventId in
  let eventName := localizedName loc eventId in
  {| eventId := eventId;
     eventName := if isRerun then eventName +:+ " " +:+ "(Rerun)" else eventName;
     startTime := formatDate (start eventData);
     endTime := formatDate (end_ eventData) |}.

End Details.

Section Rows.

Variable Date_parse : string → option Z.
Variable eventCard : string → eventData → string.
Variable displayedInstant : time_value → Z.

(** The wrappers put around a pair of cards and around the section *)
Variable row : string → string.
Variable cell : string → string.

Record rendering := {
  eventsCell : string;
  logged : list string;
  after : state
}.

(** [Object.entries(currentEvents).slice(i, i + 2)] for i = 0, 2, 4, ... *)
Fixpoint pairs {A} (entries : list A) : list (list A) :=
  match entries with
  | [] => []
  | [a] => [[a]]
  | a :: b :: rest => [a; b] :: pairs rest
  end.

(** One iteration of the loop of [processEvents] *)
Definition processRow (timerIds : nat) (now : Z) (r : rendering)
    (eventEntries : list (string * eventData)) : rendering :=
  let processedEvents :=
    processEventPair Date_parse eventCard displayedInstant
      eventEntries timerIds now (after r) in
  {| eventsCell :=
       if String.eqb (innerEventsCell processedEvents) "" then eventsCell r
       else eventsCell r +:+ row (innerEventsCell processedEvents);
     logged := logged r ++ console_log processedEvents;
     after := page processedEvents |}.

(** [processEvents(currentEvents, ...)]; [None] is a missing object *)
Definition processEvents (currentEvents : option (Obj.t eventData))
    (timerIds : nat) (now : Z) (st : state) : rendering :=
  match currentEvents with
  | None | Some [] => {| eventsCell := ""; logged := []; after := st |}
  | Some entries =>
      let r := foldl (processRow timerIds now)
                 {| eventsCell := ""; logged := []; after := st |}
                 (pairs entries) in
      {| eventsCell :=
           if String.eqb (eventsCell r) "" then "" else cell (eventsCell r);
         logged := logged r;
         after := after r |}
  end.

End Rows.

(** A field of [performanceMetrics]: an array of samples, or a number *)
Inductive metric (A : Type) :=
| Samples (l : list A)
| Setting (n : Z).
Arguments Samples {A} l.
Arguments Setting {A} n.

(** [recordPerformanceMetric(metricName, duration)] on the object
    [performanceMetrics]; what it writes to the console is left out. *)
Definition recordPerformanceMetric {A} (metricName : string) (duration : A)
    (performanceMetrics : gmap string (metric A))
  : Birthday.outcome (gmap string (metric A)) :=
  match performanceMetrics !! metricName with
  | None => Birthday.Ok performanceMetrics
  | Some (Setting n) =>
      if (n =? 0)%Z then Birthday.Ok performanceMetrics
      else Birthday.Throw Birthday.TypeError        (* a number has no push *)
  | Some (Samples l) =>
      let pushed := l ++ [duration] in
      let over :=
        match performanceMetrics !! "maxSamples" with
        | Some (Setting maxSamples) => (maxSamples <? Z.of_nat (length pushed))%Z
        | _ => false
        end in
      Birthday.Ok (<[metricName := Samples (if over then tail pushed else pushed)]>
                     performanceMetrics)
  end.

(** Recording several durations in turn under one name *)
Fixpoint recordAll {A} (metricName : string) (durations : list A)
    (pm : gmap string (metric A)) : Birthday.outcome (gmap string (metric A)) :=
  match durations with
  | [] => Birthday.Ok pm
  | d :: rest =>
      match recordPerformanceMetric metricName d pm with
      | Birthday.Ok pm' => recordAll metricName rest pm'
      | Birthday.Throw e => Birthday.Throw e
      end
  end.

End EventsView.

(** * Properties *)

(** ** Property lists *)

Section ObjFacts.

Context {A : Type}.
Implicit Types (o : Obj.t A) (k : string) (v : A).

Lemma get_None k o : Obj.get k o = None ↔ k ∉ Obj.keys o.
Proof.
  induction o as [|[k' v'] o IH]; simpl.
  - split; [intros _; apply not_elem_of_nil | done].
  - case_decide as Hk.
    + subst. split; [done | intros H; exfalso; apply H; left].
    + rewrite IH, not_elem_of_cons.
      split; [intros ?; split; [congruence | done] | by intros [_ ?]].
Qed.

Lemma get_Some_elem k o x : Obj.get k o = Some x → k ∈ Obj.keys o.
Proof.
  intros H. destruct (decide (k ∈ Obj.keys o)) as [|Hn]; [done|].
  apply get_None in Hn. congruence.
Qed.

Lemma get_elem_Some k o : k ∈ Obj.keys o → is_Some (Obj.get k o).
Proof.
  intros H. destruct (Obj.get k o) eqn:E; [eauto|].
  apply get_None in E. done.
Qed.

Lemma keys_replace k v o : Obj.keys (Obj.replace k v o) = Obj.keys o.
Proof.
  induction o as [|[k' v'] o IH]; simpl; [done|].
  case_decide; simpl; [done|]. f_equal. apply IH.
Qed.

Lemma get_replace_eq k v o :
  is_Some (Obj.get k o) → Obj.get k (Obj.replace k v o) = Some v.
Proof.
  induction o as [|[k' v'] o IH]; simpl.
  - by intros [? ?].
  - case_decide as Hk; simpl; intros H.
    + by rewrite decide_True.
    + rewrite decide_False by done. auto.
Qed.

Lemma get_replace_ne k k' v o :
  k ≠ k' → Obj.get k' (Obj.replace k v o) = Obj.get k' o.
Proof.
  intros Hne. induction o as [|[k1 v1] o IH]; simpl; [done|].
  case_decide as Hk; simpl.
  - subst. by rewrite !decide_False.
  - case_decide; [done|]. apply IH.
Qed.

Lemma keys_insert_index n k v o :
  Obj.keys (Obj.insert_index n k v o) ≡ₚ k :: Obj.keys o.
Proof.
  induction o as [|[k' v'] o IH]; simpl; [done|].
  destruct (Obj.array_index k') as [n'|]; [|done].
  destruct (n' <? n)%N; simpl; [|done].
  etrans; [apply Permutation_skip, IH | apply Permutation_swap].
Qed.

Lemma get_insert_index_eq n k v o :
  Obj.get k o = None → Obj.get k (Obj.insert_index n k v o) = Some v.
Proof.
  induction o as [|[k' v'] o IH]; simpl.
  - intros _. by rewrite decide_True.
  - case_decide as Hk; [done|]. intros Hget.
    destruct (Obj.array_index k') as [n'|]; simpl.
    + destruct (n' <? n)%N; simpl.
      * rewrite decide_False by done. auto.
      * by rewrite decide_True.
    + by rewrite decide_True.
Qed.

Lemma get_insert_index_ne n k k' v o :
  k ≠ k' → Obj.get k' (Obj.insert_index n k v o) = Obj.get k' o.
Proof.
  intros Hne. induction o as [|[k1 v1] o IH]; simpl.
  - by rewrite decide_False.
  - destruct (Obj.array_index k1) as [n'|]; simpl.
    + destruct (n' <? n)%N; simpl.
      * case_decide; [done|]. apply IH.
      * by rewrite decide_False.
    + by rewrite decide_False.
Qed.

Lemma get_app_None k o o' :
  Obj.get k o = None → Obj.get k (o ++ o') = Obj.get k o'.
Proof.
  induction o as [|[k1 v1] o IH]; simpl; [done|].
  case_decide; [done|]. apply IH.
Qed.

Lemma get_app_ne k k' v o : k ≠ k' → Obj.get k' (o ++ [(k, v)]) = Obj.get k' o.
Proof.
  intros Hne. induction o as [|[k1 v1] o IH]; simpl.
  - by rewrite decide_False.
  - case_decide; [done|]. apply IH.
Qed.

(** Reading back what was written *)
Lemma get_set_eq k v o : Obj.get k (Obj.set k v o) = Some v.
Proof.
  unfold Obj.set. destruct (Obj.get k o) as [x|] eqn:E.
  - apply get_replace_eq. rewrite E. eauto.
  - destruct (Obj.array_index k).
    + by apply get_insert_index_eq.
    + rewrite get_app_None by done. simpl. by rewrite decide_True.
Qed.

(** Writing one property leaves the others alone *)
Lemma get_set_ne k k' v o : k ≠ k' → Obj.get k' (Obj.set k v o) = Obj.get k' o.
Proof.
  intros Hne. unfold Obj.set. destruct (Obj.get k o) as [x|] eqn:E.
  - by apply get_replace_ne.
  - destruct (Obj.array_index k).
    + by apply get_insert_index_ne.
    + by apply get_app_ne.
Qed.

Lemma keys_set_Some k v o :
  is_Some (Obj.get k o) → Obj.keys (Obj.set k v o) = Obj.keys o.
Proof.
  intros [x E]. unfold Obj.set. rewrite E. apply keys_replace.
Qed.

Lemma keys_set_None k v o :
  Obj.get k o = None → Obj.keys (Obj.set k v o) ≡ₚ k :: Obj.keys o.
Proof.
  intros E. unfold Obj.set. rewrite E. destruct (Obj.array_index k).
  - apply keys_insert_index.
  - unfold Obj.keys. rewrite fmap_app. simpl.
    by rewrite Permutation_app_comm.
Qed.


Lemma length_set_Some k v o :
  is_Some (Obj.get k o) → length (Obj.keys (Obj.set k v o)) = length (Obj.keys o).
Proof. intros H. by rewrite keys_set_Some. Qed.

Lemma length_set_None k v o :
  Obj.get k o = None → length (Obj.keys (Obj.set k v o)) = S (length (Obj.keys o)).
Proof. intros H. by rewrite keys_set_None. Qed.

End ObjFacts.

(** ** The merge *)

Section MergeFacts.

Import JS Birthday MergeSpec.

Implicit Types (o : Obj.t record) (c t : record) (st : merge_state).

Lemma string_of_nat_inj n m : string_of_nat n = string_of_nat m → n = m.
Proof.
  unfold string_of_nat. intros H.
  assert (Hnil : ∀ i, Nat.to_uint i ≠ Decimal.Nil).
  { intros i Hi. pose proof (DecimalNat.Unsigned.to_of (Nat.to_uint i)) as E.
    rewrite DecimalNat.Unsigned.of_to, Hi in E. discriminate E. }
  apply DecimalNat.Unsigned.to_uint_inj.
  pose proof (NilZero.usu _ (Hnil n)) as E1.
  pose proof (NilZero.usu _ (Hnil m)) as E2.
  rewrite H in E1. congruence.
Qed.

Lemma customId_inj n m : customId n = customId m → n = m.
Proof.
  unfold customId. intros H. apply string_of_nat_inj.
  by apply (inj (String.app "DVDOOM_")) in H.
Qed.

Lemma customId_synthetic n : is_synthetic (customId n) = true.
Proof.
  unfold is_synthetic, customId. by destruct (string_of_nat n).
Qed.



Lemma lookup_assignCustom_other t c f :
  f ∉ custom_fields → assignCustom t c !! f = t !! f.
Proof.
  unfold custom_fields, assignCustom. intros Hf.
  rewrite !not_elem_of_cons in Hf. destruct Hf as (?&?&?&?&_).
  by rewrite !lookup_insert_ne.
Qed.

(** Reading through the prototype chain *)


Lemma field_seen proto c f :
  proto !! f = None → field (seen proto c) f = field c f.
Proof.
  intros H. unfold field, seen. destruct (c !! f) as [v|] eqn:E.
  - by rewrite (lookup_union_Some_l _ _ _ v).
  - by rewrite lookup_union_r, H.
Qed.

Lemma Id_not_custom : "Id" ∉ custom_fields.
Proof.
  unfold custom_fields. rewrite !not_elem_of_cons.
  split_and!; try done. apply not_elem_of_nil.
Qed.

Lemma Id_seen st c :
  prototype_fields_only st → field (seen (prototype st) c) "Id" = field c "Id".
Proof. intros H. apply field_seen, H, Id_not_custom. Qed.

(** The ways one custom record is handled *)

Lemma apply_override st c t :
  prototype_fields_only st →
  truthy (field c "Id") = true →
  Obj.get (ToString (field c "Id")) (processedData st) = Some t →
  applyCustomStudent st c =
    {| processedData :=
         Obj.set (ToString (field c "Id"))
           (assignCustom t (seen (prototype st) c)) (processedData st);
       warnings := warnings st;
       prototype := prototype st;
       members := members st |}.
Proof.
  intros Hinv Hid Hget. unfold applyCustomStudent, lookup. cbv zeta.
  by rewrite (Id_seen st c Hinv), Hid, Hget.
Qed.

(** An identifier that is not a key changes no record, whatever it names *)
Lemma apply_unknown_data st c :
  prototype_fields_only st →
  truthy (field c "Id") = true →
  Obj.get (ToString (field c "Id")) (processedData st) = None →
  processedData (applyCustomStudent st c) = processedData st.
Proof.
  intros Hinv Hid Hget. unfold applyCustomStudent, lookup. cbv zeta.
  rewrite (Id_seen st c Hinv), Hid, Hget.
  repeat case_decide; simpl; try done.
  destruct (prototype st !! _) as [v|]; simpl; [by destruct (truthy v)|done].
Qed.


Lemma apply_addition st c :
  prototype_fields_only st →
  truthy (field c "Id") = false →
  let id := customId (length (Obj.keys (processedData st))) in
  applyCustomStudent st c =
    {| processedData :=
         Obj.set id (assignCustom ∅ (seen (prototype st) c))
           (Obj.set id ∅ (processedData st));
       warnings := warnings st;
       prototype := prototype st;
       members := members st |}.
Proof.
  intros Hinv Hid. unfold applyCustomStudent. cbv zeta.
  rewrite (Id_seen st c Hinv), Hid. by rewrite get_set_eq.
Qed.

Lemma get_after_addition st c k :
  prototype_fields_only st →
  truthy (field c "Id") = false →
  Obj.get k (processedData (applyCustomStudent st c)) =
    if decide (customId (length (Obj.keys (processedData st))) = k)
    then Some (assignCustom ∅ (seen (prototype st) c))
    else Obj.get k (processedData st).
Proof.
  intros Hinv Hid. rewrite apply_addition by done. simpl. case_decide as Hk.
  - subst k. apply get_set_eq.
  - by rewrite !get_set_ne.
Qed.

Lemma length_after_addition st c :
  prototype_fields_only st →
  truthy (field c "Id") = false →
  Obj.get (customId (length (Obj.keys (processedData st)))) (processedData st) = None →
  length (Obj.keys (processedData (applyCustomStudent st c)))
  = S (length (Obj.keys (processedData st))).
Proof.
  intros Hinv Hid Hfresh. rewrite apply_addition by done. simpl.
  rewrite length_set_Some by (rewrite get_set_eq; eauto).
  by apply length_set_None.
Qed.

(** What the loop keeps true of Object.prototype *)

Lemma apply_fields_only st c :
  prototype_fields_only st → prototype_fields_only (applyCustomStudent st c).
Proof.
  intros Hinv f Hf. unfold applyCustomStudent, lookup. cbv zeta.
  destruct (truthy _); [|by apply Hinv].
  destruct (Obj.get _ _); [by apply Hinv|].
  repeat case_decide; simpl.
  - rewrite lookup_assignCustom_other by done. by apply Hinv.
  - by apply Hinv.
  - destruct (prototype st !! _) as [v|]; simpl;
      [destruct (truthy v)|]; by apply Hinv.
Qed.

Lemma process_fields_only o l : prototype_fields_only (processCustomData o l).
Proof.
  unfold processCustomData. induction l as [|c l IH] using rev_ind; [done|].
  rewrite foldl_app. by apply apply_fields_only.
Qed.




(** The loop, one record at a time *)

Lemma process_snoc o l c :
  processCustomData o (l ++ [c]) = applyCustomStudent (processCustomData o l) c.
Proof. unfold processCustomData. by rewrite foldl_app. Qed.







(** Generated keys in use stay below the number of keys *)

Lemma namespace_free_generated o :
  namespace_free o = true → generated_below o.
Proof.
  unfold namespace_free. intros Hfree n _. apply get_None. intros Hin.
  rewrite forallb_forall in Hfree.
  apply list_elem_of_In, Hfree in Hin.
  by rewrite customId_synthetic in Hin.
Qed.

Lemma apply_generated st c :
  prototype_fields_only st →
  generated_below (processedData st) →
  generated_below (processedData (applyCustomStudent st c)).
Proof.
  intros Hp Hinv. destruct (truthy (field c "Id")) eqn:Hid.
  - destruct (Obj.get (ToString (field c "Id")) (processedData st)) as [t|] eqn:Hget.
    + rewrite (apply_override _ _ t) by done. simpl. intros n Hn.
      rewrite length_set_Some in Hn by (rewrite Hget; eauto).
      destruct (decide (ToString (field c "Id") = customId n)) as [E|E].
      * rewrite E, Hinv in Hget; done.
      * rewrite get_set_ne by done. by apply Hinv.
    + by rewrite apply_unknown_data.
  - intros n Hn.
    rewrite length_after_addition in Hn by (done || by apply Hinv).
    rewrite get_after_addition by done.
    rewrite decide_False; [apply Hinv; lia|].
    intros E. apply customId_inj in E. lia.
Qed.

Lemma process_generated o l :
  generated_below o → generated_below (working o l).
Proof.
  intros Hinv. unfold working. induction l as [|c l IH] using rev_ind; [done|].
  rewrite process_snoc. apply apply_generated; [apply process_fields_only|done].
Qed.


End MergeFacts.

(** ** Merge: order, additions, unknown references *)

Section MergeClaims.

Import JS Birthday MergeSpec Samples.

(** The example of the specification: overrides "Y" then "Z" leave "Z". *)
Example override_precedence_example :
  (λ r, field r "FamilyName") <$> Obj.get "A" (working official_A [custom_Y; custom_Z])
  = Some (JStr "Z").
Proof. vm_compute. reflexivity. Qed.

(** A custom record carrying "__proto__" writes its fields on
    Object.prototype, where a later custom record that lacks a field reads
    it: "A" ends with the personal name "R" that the record overriding it
    does not have. *)
Example prototype_reference_leaks :
  (λ r, field r "PersonalName") <$> Obj.get "A" (working official_A [custom_proto; custom_Z])
  = Some (JStr "R")
  ∧ field custom_Z "PersonalName" = JUndefined
  ∧ warnings (processCustomData official_A [custom_proto; custom_Z]) = [].
Proof. vm_compute. done. Qed.







(** An identifier that names a member function of Object.prototype is
    found too: no warning, and the fields are written on the function. *)
Example member_reference_found :
  warnings (processCustomData official_A [custom_toString]) = []
  ∧ (λ r, field r "FamilyName")
      <$> members (processCustomData official_A [custom_toString]) !! "toString"
    = Some (JStr "T").
Proof. vm_compute. done. Qed.




End MergeClaims.

(** ** The date pattern *)

Section PatternFacts.

Import JS Birthday IndexSpec.

Lemma app_cons c s r : String c s +:+ r = String c (s +:+ r).
Proof. reflexivity. Qed.

Lemma app_empty r : "" +:+ r = r.
Proof. reflexivity. Qed.

Lemma digits_plus_elem s d rest :
  (d, rest) ∈ digits_plus s ↔ s = d +:+ rest ∧ digit_run d.
Proof.
  unfold digit_run. revert d rest.
  induction s as [|c s IH]; intros d rest; simpl.
  - split; [intros H; by apply elem_of_nil in H|].
    intros (E & Hne & _). destruct d; [done | discriminate E].
  - destruct (is_digit c) eqn:Hc.
    + rewrite elem_of_app, list_elem_of_fmap, list_elem_of_singleton. split.
      * intros [([d' rest'] & E & Hin)|E]; simplify_eq/=.
        -- apply IH in Hin as (-> & _ & Hd). by rewrite Hc, Hd.
        -- by rewrite Hc.
      * intros (E & Hne & Hd). destruct d as [|c' d]; [done|].
        rewrite app_cons in E. simplify_eq/=.
        apply andb_true_iff in Hd as [_ Hd]. destruct d as [|c'' d].
        -- by right.
        -- left. exists (String c'' d, rest). split; [done|].
           apply IH. by rewrite app_cons.
    + split; [intros H; by apply elem_of_nil in H|].
      intros (E & Hne & Hd). destruct d as [|c' d]; [done|].
      rewrite app_cons in E. simplify_eq/=. by rewrite Hc in Hd.
Qed.

Lemma first_some_Some {A B} (f : A → option B) l b :
  first_some f l = Some b → ∃ a, a ∈ l ∧ f a = Some b.
Proof.
  induction l as [|a l IH]; simpl; [done|].
  destruct (f a) eqn:E.
  - intros [= ->]. exists a. split; [left | done].
  - intros H. destruct (IH H) as (a' & ? & ?). exists a'. split; [by right | done].
Qed.

Lemma first_some_None {A B} (f : A → option B) l a :
  first_some f l = None → a ∈ l → f a = None.
Proof.
  induction l as [|a' l IH]; simpl; [intros _ H; by apply elem_of_nil in H|].
  destruct (f a') eqn:E; [done|]. intros H Hin.
  apply elem_of_cons in Hin as [->|Hin]; auto.
Qed.

(** What an anchored match reads *)
Lemma match_here_Some s month day :
  match_here s = Some (month, day) →
  ∃ post, s = month +:+ "/" +:+ day +:+ post ∧ digit_run month ∧ digit_run day.
Proof.
  unfold match_here. intros H.
  apply first_some_Some in H as ([m rest] & Hin & Hf). simpl in Hf.
  destruct rest as [|c r]; [done|].
  destruct (Ascii.eqb_spec c "/") as [->|Hc].
  - destruct (digits_plus r) as [|[d rest'] l] eqn:Hr; [done|].
    simplify_eq/=. apply digits_plus_elem in Hin as [-> Hm].
    assert ((day, rest') ∈ digits_plus r) as Hd by (rewrite Hr; left).
    apply digits_plus_elem in Hd as [-> Hd]. by exists rest'.
  - destruct c as [[] [] [] [] [] [] [] []]; try done.
Qed.

(** An anchored occurrence is matched *)
Lemma match_here_occurs month day post :
  digit_run month → digit_run day →
  is_Some (match_here (month +:+ "/" +:+ day +:+ post)).
Proof.
  intros Hm Hd. destruct (match_here _) as [g|] eqn:E; [eauto|].
  unfold match_here in E.
  assert ((month, "/" +:+ day +:+ post)
            ∈ digits_plus (month +:+ "/" +:+ day +:+ post)) as Hin
    by by apply digits_plus_elem.
  pose proof (first_some_None _ _ _ E Hin) as E'. simpl in E'.
  rewrite app_empty in E'.
  assert ((day, post) ∈ digits_plus (day +:+ post)) as Hin'
    by by apply digits_plus_elem.
  destruct (digits_plus (day +:+ post)) as [|[d rest] l]; [|done].
  by apply elem_of_nil in Hin'.
Qed.

Lemma regex_match_Some s month day :
  regex_match s = Some (month, day) → occurs_in month day s.
Proof.
  induction s as [|c s IH]; simpl.
  - done.
  - destruct (match_here (String c s)) as [g|] eqn:E.
    + intros [= ->]. apply match_here_Some in E as (post & E & ? & ?).
      by exists "", post.
    + intros H. destruct (IH H) as (pre & post & -> & ? & ?).
      by exists (String c pre), post.
Qed.

Lemma regex_match_occurs s :
  has_date_pattern s → is_Some (regex_match s).
Proof.
  intros (month & day & pre & post & -> & Hm & Hd).
  induction pre as [|c pre IH].
  - rewrite app_empty.
    destruct (match_here_occurs month day post Hm Hd) as [g Hg].
    revert Hg. generalize (month +:+ "/" +:+ day +:+ post).
    intros [|c s] Hg; [done|]. simpl. rewrite Hg. eauto.
  - rewrite app_cons. simpl. destruct (match_here _); [eauto | done].
Qed.

Lemma digits_plus_nil s : digits_plus s = [] ↔ starts_with_digit s = false.
Proof.
  destruct s as [|c s]; simpl; [done|]. destruct (is_digit c); [|done].
  split; [|done]. intros E. by apply app_eq_nil in E as [_ ?].
Qed.

(** The first way tried takes every digit. *)
Lemma digits_plus_head s d rest l :
  digits_plus s = (d, rest) :: l → starts_with_digit rest = false.
Proof.
  revert d rest l. induction s as [|c s IH]; intros d rest l; simpl; [done|].
  destruct (is_digit c); [|done].
  destruct (digits_plus s) as [|[d' rest'] l'] eqn:E; simpl.
  - intros [= <- <-]. by apply digits_plus_nil.
  - intros [= <- <- <-]. by eapply IH.
Qed.

Lemma match_here_anchored s : match_here s = None → ¬ anchored s.
Proof.
  intros E (month & day & post & -> & Hm & Hd).
  destruct (match_here_occurs month day post Hm Hd) as [g Hg]. congruence.
Qed.

Lemma match_here_day s month day :
  match_here s = Some (month, day) →
  ∃ post, s = month +:+ "/" +:+ day +:+ post
          ∧ digit_run month ∧ digit_run day ∧ starts_with_digit post = false.
Proof.
  unfold match_here. intros H.
  apply first_some_Some in H as ([m rest] & Hin & Hf). simpl in Hf.
  destruct rest as [|c r]; [done|].
  destruct (Ascii.eqb_spec c "/") as [->|Hc].
  - destruct (digits_plus r) as [|[d rest'] l] eqn:Hr; [done|].
    simplify_eq/=. apply digits_plus_elem in Hin as [-> Hm].
    assert ((day, rest') ∈ digits_plus r) as Hd by (rewrite Hr; left).
    apply digits_plus_head in Hr.
    apply digits_plus_elem in Hd as [-> Hd]. by exists rest'.
  - destruct c as [[] [] [] [] [] [] [] []]; try done.
Qed.

Lemma app_eq_empty p1 p2 : "" = p1 +:+ p2 → p2 = "".
Proof. destruct p1; [done | discriminate]. Qed.

(** What a match reads is the leftmost occurrence. *)
Lemma regex_match_leftmost s month day :
  regex_match s = Some (month, day) → leftmost_in month day s.
Proof.
  induction s as [|c s IH]; simpl; [done|].
  destruct (match_here (String c s)) as [g|] eqn:E.
  - intros [= ->]. apply match_here_day in E as (post & E & ? & ? & ?).
    exists "", post. split_and!; [done..|].
    intros p1 p2 Hp Hne. by apply app_eq_empty in Hp.
  - intros H. destruct (IH H) as (pre & post & -> & ? & ? & ? & Hleft).
    exists (String c pre), post. split_and!; [done..|].
    intros [|c' p1] p2 Hp Hne.
    + rewrite app_empty in Hp. subst p2. by apply match_here_anchored.
    + rewrite app_cons in Hp. injection Hp as -> ->. by apply (Hleft p1 p2).
Qed.

(** A string is unparsable exactly when it has no occurrence of the
    pattern *)
Lemma regex_match_None s : regex_match s = None ↔ ¬ has_date_pattern s.
Proof.
  split.
  - intros E Hp. apply regex_match_occurs in Hp as [g Hg]. congruence.
  - intros Hn. destruct (regex_match s) as [[m d]|] eqn:E; [|done].
    destruct Hn. exists m, d. by apply regex_match_Some.
Qed.

End PatternFacts.

(** ** Buckets *)

Section BucketFacts.

Import JS Birthday IndexSpec.

Implicit Types (sd e : DisplayEntry) (b : list DisplayEntry).

Lemma includes_true l v : includes l v = true ↔ v ∈ l.
Proof. unfold includes. apply bool_decide_eq_true. Qed.

Lemma includes_false l v : includes l v = false ↔ v ∉ l.
Proof. unfold includes. apply bool_decide_eq_false. Qed.

Lemma push_image_name img e : name (push_image img e) = name e.
Proof. reflexivity. Qed.

Lemma names_alter img i b :
  name <$> alter (push_image img) i b = name <$> b.
Proof.
  rewrite (list_fmap_alter name (push_image img) id).
  - by apply list_alter_id.
  - by apply Forall_forall.
Qed.

Lemma addToBucket_names sd b :
  name <$> addToBucket sd b =
    if decide (name sd ∈ name <$> b) then name <$> b
    else (name <$> b) ++ [name sd].
Proof.
  unfold addToBucket.
  destruct (list_find _ b) as [[i e]|] eqn:Hfind.
  - apply list_find_Some in Hfind as (Hi & He & _).
    rewrite decide_True.
    + destruct (includes _ _); [done | apply names_alter].
    + rewrite <- He. apply list_elem_of_fmap. exists e.
      split; [done | by eapply list_elem_of_lookup_2].
  - apply list_find_None in Hfind. rewrite decide_False.
    + by rewrite fmap_app.
    + intros (e & He & Hin)%list_elem_of_fmap.
      rewrite Forall_forall in Hfind. by apply (Hfind e).
Qed.

Lemma addToBucket_NoDup_names sd b :
  NoDup (name <$> b) → NoDup (name <$> addToBucket sd b).
Proof.
  intros Hnd. rewrite addToBucket_names. case_decide as Hin; [done|].
  apply NoDup_app. split; [done|]. split; [|apply NoDup_singleton].
  intros x Hx ->%list_elem_of_singleton. done.
Qed.

Lemma addToBucket_NoDup_images sd b :
  NoDup (images sd) →
  Forall (λ e, NoDup (images e)) b →
  Forall (λ e, NoDup (images e)) (addToBucket sd b).
Proof.
  intros Hsd Hb. unfold addToBucket.
  destruct (list_find _ b) as [[i e]|] eqn:Hfind.
  - apply list_find_Some in Hfind as (Hi & _ & _).
    destruct (includes _ _) eqn:Hinc; [done|].
    apply Forall_alter; [done|]. intros x Hx Hnd. simplify_eq. simpl.
    apply includes_false in Hinc.
    apply NoDup_app. split; [done|]. split; [|apply NoDup_singleton].
    intros y Hy ->%list_elem_of_singleton. done.
  - apply Forall_app. split; [done|]. by apply Forall_singleton.
Qed.

Lemma addToBucket_nonempty sd b : addToBucket sd b ≠ [].
Proof.
  unfold addToBucket.
  destruct (list_find _ b) as [[i e]|] eqn:Hfind.
  - apply list_find_Some in Hfind as (Hi & _ & _).
    assert (length b ≠ 0%nat) as Hlen
      by (apply lookup_lt_Some in Hi; lia).
    destruct (includes _ _); intros E; apply Hlen.
    + by rewrite E.
    + by rewrite <- (length_alter (push_image (default JUndefined (head (images sd)))) b i), E.
  - by destruct b.
Qed.

Lemma addToBucket_ok sd b :
  NoDup (images sd) → bucket_ok b → bucket_ok (addToBucket sd b).
Proof.
  intros Hsd [Hn Hi]. split.
  - by apply addToBucket_NoDup_names.
  - by apply addToBucket_NoDup_images.
Qed.

(** A record whose name is new to the bucket adds an entry at the end. *)
Lemma addToBucket_new sd b :
  name sd ∉ name <$> b → addToBucket sd b = b ++ [sd].
Proof.
  intros Hnew. unfold addToBucket.
  destruct (list_find _ b) as [[i e]|] eqn:Hfind; [|done].
  apply list_find_Some in Hfind as (Hi & He & _). destruct Hnew.
  rewrite <- He. apply list_elem_of_fmap. exists e.
  split; [done | by eapply list_elem_of_lookup_2].
Qed.

(** A record whose name is that of entry [i] changes that entry only:
    its image goes to the end of the entry's list unless listed already. *)
Lemma addToBucket_existing sd b i e :
  NoDup (name <$> b) → b !! i = Some e → name e = name sd →
  addToBucket sd b =
    <[i := {| name := name e;
              images := add_image (default JUndefined (head (images sd))) (images e) |}]> b.
Proof.
  intros Hnd Hi He. unfold addToBucket, add_image.
  destruct (list_find _ b) as [[j e']|] eqn:Hfind.
  - apply list_find_Some in Hfind as (Hj & He' & _).
    assert (j = i) as ->.
    { eapply (NoDup_lookup (name <$> b)); [done| |].
      - rewrite list_lookup_fmap, Hj. simpl. by rewrite He'.
      - rewrite list_lookup_fmap, Hi. simpl. by rewrite He. }
    simplify_eq. destruct (includes _ _) eqn:Hinc.
    + apply includes_true in Hinc. rewrite decide_True by done.
      symmetry. apply list_insert_id. by destruct e.
    + apply includes_false in Hinc. rewrite decide_False by done.
      apply list_eq. intros k. destruct (decide (k = i)) as [->|Hk].
      * rewrite list_lookup_alter_eq, Hi. simpl.
        rewrite list_lookup_insert_eq by (by eapply lookup_lt_Some). done.
      * rewrite list_lookup_alter_ne, list_lookup_insert_ne by done. done.
  - apply list_find_None in Hfind. rewrite Forall_forall in Hfind.
    destruct (Hfind e); [by eapply list_elem_of_lookup_2 | done].
Qed.

(** First occurrences *)

Lemma elem_of_first_occurrences {A} `{EqDecision A} (l : list A) x :
  x ∈ first_occurrences l ↔ x ∈ l.
Proof.
  induction l as [|y l IH]; simpl; [done|].
  rewrite !elem_of_cons, list_elem_of_filter, IH.
  destruct (decide (x = y)); tauto.
Qed.

Lemma NoDup_first_occurrences {A} `{EqDecision A} (l : list A) :
  NoDup (first_occurrences l).
Proof.
  induction l as [|y l IH]; simpl; [apply NoDup_nil_2|].
  apply NoDup_cons. split; [|by apply NoDup_filter].
  rewrite list_elem_of_filter. by intros [? _].
Qed.

Lemma first_occurrences_snoc {A} `{EqDecision A} (l : list A) x :
  first_occurrences (l ++ [x]) =
    if decide (x ∈ l) then first_occurrences l else first_occurrences l ++ [x].
Proof.
  induction l as [|y l IH]; [done|].
  cbn [app first_occurrences].
  - rewrite IH. destruct (decide (x = y)) as [->|Hne].
    + rewrite (decide_True (P := y ∈ y :: l)) by left.
      case_decide; [done|].
      rewrite filter_app, filter_cons, decide_False by (by intros ?).
      by rewrite filter_nil, app_nil_r.
    + case_decide as Hin.
      * by rewrite decide_True by (by right).
      * rewrite decide_False by (by intros [?|?]%elem_of_cons).
        rewrite filter_app, filter_cons, decide_True by done.
        by rewrite filter_nil.
Qed.

Lemma names_grouped ps : name <$> grouped ps = first_occurrences ps.*1.
Proof.
  unfold grouped. rewrite <- list_fmap_compose. simpl.
  apply list_fmap_id.
Qed.

Lemma filter_snoc_other (ps : list (string * value)) nm nm' img :
  nm' ≠ nm →
  filter (λ p, p.1 = nm') (ps ++ [(nm, img)]) = filter (λ p, p.1 = nm') ps.
Proof.
  intros Hne. rewrite filter_app, filter_cons, decide_False by (simpl; congruence).
  by rewrite filter_nil, app_nil_r.
Qed.

Lemma filter_snoc_same (ps : list (string * value)) nm img :
  filter (λ p, p.1 = nm) (ps ++ [(nm, img)])
  = filter (λ p, p.1 = nm) ps ++ [(nm, img)].
Proof.
  rewrite filter_app, filter_cons, decide_True by done. by rewrite filter_nil.
Qed.

(** The reducer's step on a bucket adds one record to the grouping. *)
Lemma addToBucket_grouped ps nm img :
  addToBucket {| name := nm; images := [img] |} (grouped ps)
  = grouped (ps ++ [(nm, img)]).
Proof.
  destruct (decide (nm ∈ ps.*1)) as [Hin|Hout].
  - pose proof (proj2 (elem_of_first_occurrences ps.*1 nm) Hin) as Hfirst.
    apply list_elem_of_lookup in Hfirst as [i Hi].
    assert (grouped ps !! i
            = Some {| name := nm;
                      images := first_occurrences (filter (λ p, p.1 = nm) ps).*2 |})
      as Hentry by (unfold grouped; by rewrite list_lookup_fmap, Hi).
    assert (NoDup (name <$> grouped ps)) as Hnd
      by (rewrite names_grouped; apply NoDup_first_occurrences).
    rewrite (addToBucket_existing {| name := nm; images := [img] |} (grouped ps)
               i _ Hnd Hentry eq_refl).
    simpl. unfold grouped at 2. rewrite fmap_app. simpl.
    rewrite first_occurrences_snoc, decide_True by done.
    apply list_eq. intros j. unfold grouped. rewrite list_lookup_fmap.
    destruct (decide (j = i)) as [->|Hji].
    + rewrite list_lookup_insert_eq
        by (rewrite length_fmap; by eapply lookup_lt_Some).
      rewrite Hi. simpl. do 2 f_equal.
      rewrite filter_snoc_same, fmap_app. simpl.
      rewrite first_occurrences_snoc. unfold add_image.
      destruct (decide (img ∈ (filter (λ p, p.1 = nm) ps).*2)) as [Hi1|Hi1].
      * by rewrite decide_True by (by apply elem_of_first_occurrences).
      * by rewrite decide_False by (by rewrite elem_of_first_occurrences).
    + rewrite list_lookup_insert_ne, list_lookup_fmap by done.
      destruct (first_occurrences ps.*1 !! j) as [nm'|] eqn:Hj; [|done].
      simpl. do 3 f_equal. rewrite filter_snoc_other; [done|].
      intros ->. apply Hji.
      by apply (NoDup_lookup _ _ _ _ (NoDup_first_occurrences ps.*1) Hj Hi).
  - rewrite addToBucket_new
      by (rewrite names_grouped, elem_of_first_occurrences; done).
    unfold grouped. rewrite (fmap_app fst). simpl.
    rewrite first_occurrences_snoc, decide_False by done.
    rewrite fmap_app. simpl. f_equal.
    + apply list_fmap_ext. intros j nm' Hj. do 3 f_equal.
      rewrite filter_snoc_other; [done|]. intros ->. apply Hout.
      apply (elem_of_first_occurrences ps.*1 nm). by eapply list_elem_of_lookup_2.
    + do 2 f_equal. rewrite filter_snoc_same, fmap_app.
      assert (filter (λ p, p.1 = nm) ps = []) as ->; [|done].
      destruct (filter (λ p, p.1 = nm) ps) as [|p l] eqn:E; [done|].
      assert (p ∈ filter (λ p, p.1 = nm) ps) as Hp by (rewrite E; left).
      apply list_elem_of_filter in Hp as [Hp1 Hp2]. destruct Hout.
      rewrite <- Hp1. apply list_elem_of_fmap. by exists p.
Qed.

End BucketFacts.

(** ** The lookup structure *)

Section IndexFacts.

Import JS Birthday IndexSpec.

Implicit Types (acc idx : Index) (r : record) (rs : list record).

Lemma bucket_at_lookup idx m d :
  bucket_at idx m d = default [] (bucket_lookup idx m d).
Proof.
  unfold bucket_at, bucket_lookup. destruct (idx !! m); simpl; [done|].
  by rewrite lookup_empty.
Qed.

Lemma bucket_lookup_insert acc m d b m' d' :
  bucket_lookup (<[m := <[d := b]> (default ∅ (acc !! m))]> acc) m' d' =
    if decide (m' = m ∧ d' = d) then Some b else bucket_lookup acc m' d'.
Proof.
  unfold bucket_lookup. destruct (decide (m' = m)) as [->|Hm].
  - rewrite lookup_insert_eq. simpl. destruct (decide (d' = d)) as [->|Hd].
    + rewrite lookup_insert_eq. by rewrite decide_True.
    + rewrite lookup_insert_ne by done. rewrite decide_False by (by intros [_ ?]).
      destruct (acc !! m); simpl; [done | apply lookup_empty].
  - rewrite lookup_insert_ne by done. by rewrite decide_False by (by intros [? _]).
Qed.

(** What the reducer does with one record *)
Lemma addStudent_Ok acc r acc' :
  addStudent acc r = Ok acc' →
  (birthdayMatch (field r "BirthDay") = Ok None ∧ acc' = acc)
  ∨ ∃ m d, dated r m d
           ∧ acc' = <[m := <[d := addToBucket (studentData r) (bucket_at acc m d)]>
                              (default ∅ (acc !! m))]> acc.
Proof.
  unfold addStudent, dated.
  destruct (birthdayMatch _) as [[[m d]|]|e]; intros H; simplify_eq.
  - right. by exists m, d.
  - by left.
Qed.

Lemma addStudent_skip acc r :
  date_absent_or_unparsable r → addStudent acc r = Ok acc.
Proof.
  unfold date_absent_or_unparsable, addStudent, birthdayMatch.
  destruct (field r "BirthDay") as [| | |n|s]; try done.
  intros Hn. apply regex_match_None in Hn. by rewrite Hn.
Qed.

Lemma addStudent_dated acc r m d :
  dated r m d →
  addStudent acc r =
    Ok (<[m := <[d := addToBucket (studentData r) (bucket_at acc m d)]>
                  (default ∅ (acc !! m))]> acc).
Proof. unfold dated, addStudent. by intros ->. Qed.

Lemma studentData_images r : NoDup (images (studentData r)).
Proof. apply NoDup_singleton. Qed.

Lemma addStudent_ok acc r acc' :
  index_ok acc → addStudent acc r = Ok acc' → index_ok acc'.
Proof.
  intros Hacc [[_ ->]|(m & d & _ & ->)]%addStudent_Ok; [done|].
  intros m' d' b. rewrite bucket_lookup_insert. case_decide as Hmd.
  - intros [= <-]. split; [apply addToBucket_nonempty|].
    apply addToBucket_ok; [apply studentData_images|].
    rewrite bucket_at_lookup.
    destruct (bucket_lookup acc m d) as [b0|] eqn:E; simpl.
    + by apply (Hacc m d).
    + split; [apply NoDup_nil_2 | apply Forall_nil_2].
  - apply Hacc.
Qed.

Lemma reduce_ok rs acc idx :
  index_ok acc → reduce rs acc = Ok idx → index_ok idx.
Proof.
  revert acc. induction rs as [|r rs IH]; intros acc Hacc; simpl.
  - by intros [= <-].
  - destruct (addStudent acc r) as [acc'|e] eqn:E; [|done].
    apply IH. by eapply addStudent_ok.
Qed.

Lemma index_ok_empty : index_ok ∅.
Proof. intros m d b. unfold bucket_lookup. by rewrite lookup_empty. Qed.

Lemma reduce_app rs1 rs2 acc :
  reduce (rs1 ++ rs2) acc =
    match reduce rs1 acc with
    | Ok acc' => reduce rs2 acc'
    | Throw e => Throw e
    end.
Proof.
  revert acc. induction rs1 as [|r rs1 IH]; intros acc; simpl; [done|].
  destruct (addStudent acc r); [apply IH | done].
Qed.

(** A skipped record changes nothing of what is built. *)
Lemma reduce_skip rs1 r rs2 acc :
  date_absent_or_unparsable r →
  reduce (rs1 ++ r :: rs2) acc = reduce (rs1 ++ rs2) acc.
Proof.
  intros Hr. rewrite !reduce_app. destruct (reduce rs1 acc); [|done].
  simpl. by rewrite addStudent_skip.
Qed.

(** The structure is built whenever every date present is a string. *)
Lemma reduce_total rs acc :
  Forall date_is_text rs → ∃ idx, reduce rs acc = Ok idx.
Proof.
  intros Hrs. revert acc. induction Hrs as [|r rs Hr _ IH]; intros acc; simpl.
  - by exists acc.
  - assert (∃ acc', addStudent acc r = Ok acc') as [acc' ->]; [|apply IH].
    unfold date_is_text in Hr. unfold addStudent, birthdayMatch.
    destruct (field r "BirthDay") as [| | |n|s]; try done; try by eexists.
    destruct (regex_match s) as [[ms ds]|]; by eexists.
Qed.

(** The buckets present are those of the dates read. *)
Lemma reduce_buckets rs acc idx :
  reduce rs acc = Ok idx →
  ∀ m d, is_Some (bucket_lookup idx m d)
         ↔ is_Some (bucket_lookup acc m d) ∨ ∃ r, r ∈ rs ∧ dated r m d.
Proof.
  revert acc. induction rs as [|r rs IH]; intros acc; simpl.
  - intros [= <-] m d. split; [by left|].
    intros [?|(r & Hr & _)]; [done | by apply elem_of_nil in Hr].
  - destruct (addStudent acc r) as [acc'|e] eqn:E; [|done].
    intros Hrs m d. rewrite (IH _ Hrs).
    apply addStudent_Ok in E as [[Hnone ->]|(m0 & d0 & Hdated & ->)].
    + split; (intros [?|(r' & Hr' & ?)]; [by left|right]).
      * exists r'. split; [by right | done].
      * apply elem_of_cons in Hr' as [->|Hr']; [|by exists r'].
        unfold dated in *. congruence.
    + rewrite bucket_lookup_insert. split.
      * intros [Hb|(r' & Hr' & ?)].
        -- case_decide as Hmd; [|by left]. destruct Hmd as [-> ->].
           right. exists r. split; [left | done].
        -- right. exists r'. split; [by right | done].
      * intros [Hb|(r' & Hr' & Hd')].
        -- left. case_decide; [eauto | done].
        -- apply elem_of_cons in Hr' as [->|Hr']; [|right; by exists r'].
           left. unfold dated in *. rewrite Hdated in Hd'.
           injection Hd' as -> ->. rewrite decide_True by done. eauto.
Qed.

Lemma dated_at_true r m d : dated_at m d r = true ↔ dated r m d.
Proof.
  unfold dated_at, dated.
  destruct (birthdayMatch _) as [[[m' d']|]|e]; [|done..].
  rewrite andb_true_iff, !N.eqb_eq. split.
  - by intros [-> ->].
  - by intros [= -> ->].
Qed.

Lemma bucket_at_insert acc m d b m' d' :
  bucket_at (<[m := <[d := b]> (default ∅ (acc !! m))]> acc) m' d' =
    if decide (m' = m ∧ d' = d) then b else bucket_at acc m' d'.
Proof.
  rewrite !bucket_at_lookup, bucket_lookup_insert. by case_decide.
Qed.

(** The reducer groups the records of each date. *)
Lemma reduce_grouped rs acc idx (ps : N → N → list (string * value)) :
  (∀ m d, bucket_at acc m d = grouped (ps m d)) →
  reduce rs acc = Ok idx →
  ∀ m d, bucket_at idx m d
         = grouped (ps m d ++ (brings <$> filter (λ s, dated_at m d s = true) rs)).
Proof.
  revert acc ps. induction rs as [|r rs IH]; intros acc ps Hacc; simpl.
  - intros [= <-] m d. by rewrite app_nil_r.
  - destruct (addStudent acc r) as [acc'|e] eqn:E; [|done].
    intros Hrs m d.
    assert (∀ m d, bucket_at acc' m d
                   = grouped (ps m d
                                ++ (brings <$> filter (λ s, dated_at m d s = true) [r])))
      as Hacc'.
    { clear m d. intros m d. rewrite filter_cons, filter_nil.
      apply addStudent_Ok in E as [[Hnone ->]|(m0 & d0 & Hdated & ->)].
      - rewrite decide_False; [by rewrite app_nil_r|].
        unfold dated_at. by rewrite Hnone.
      - rewrite bucket_at_insert. case_decide as Hmd.
        + destruct Hmd as [-> ->].
          rewrite decide_True by (by apply dated_at_true).
          rewrite Hacc. apply addToBucket_grouped.
        + rewrite decide_False; [by rewrite app_nil_r|].
          rewrite dated_at_true. unfold dated in *. rewrite Hdated.
          intros [= -> ->]. by apply Hmd. }
    rewrite (IH acc' _ Hacc' Hrs m d), <- (assoc_L (++)), <- fmap_app.
    do 3 f_equal. rewrite (filter_cons _ r rs), filter_cons, filter_nil.
    by case_decide.
Qed.

End IndexFacts.

(** ** Lookup structure: buckets and dates *)

Section IndexClaims.

Import JS Birthday IndexSpec Samples.

(** The example of the specification, with the first image repeated by a
    third record. *)
Example bucket_dedup_example :
  buildLookup alices = Ok alice_index
  ∧ bucket_at alice_index 3 5
    = [{| name := "Alice Smith"; images := [JStr "img1"; JStr "img2"] |}].
Proof. split; vm_compute; reflexivity. Qed.

(** C4: the lookup structure is built from any set of unified records
    whose dates, when present, are strings; the bucket of a (month, day)
    is then made of the records read with that date, grouped by display
    name: one entry per name, the names in the order in which they first
    come, each entry listing the images brought under its name, every
    image once, in the order in which the images first come; so no two
    entries of a bucket share a name and no entry lists an image twice. *)
Theorem C4_bucket_dedup processed :
  (Forall date_is_text (Obj.values processed) →
   ∃ idx, buildLookup processed = Ok idx)
  ∧ (∀ idx month day,
       buildLookup processed = Ok idx →
       bucket_at idx month day = bucket_of (Obj.values processed) month day
       ∧ bucket_ok (bucket_at idx month day)).
Proof.
  split.
  - apply reduce_total.
  - intros idx month day Hidx. split.
    + unfold bucket_of.
      assert (∀ m d, bucket_at (∅ : Index) m d = grouped []) as Hempty.
      { intros m d. unfold bucket_at. rewrite lookup_empty. simpl.
        by rewrite lookup_empty. }
      by rewrite (reduce_grouped _ _ _ (λ _ _, []) Hempty Hidx month day).
    + rewrite bucket_at_lookup.
      destruct (bucket_lookup idx month day) as [bucket|] eqn:E; simpl.
      * by apply (reduce_ok _ _ _ index_ok_empty Hidx month day).
      * split; [apply NoDup_nil_2 | apply Forall_nil_2].
Qed.

Lemma C4_bucket_dedup_witness :
  buildLookup alices = Ok alice_index
  ∧ bucket_at alice_index 3 5
    = [{| name := "Alice Smith"; images := [JStr "img1"; JStr "img2"] |}].
Proof.
  assert (buildLookup alices = Ok alice_index) as Hidx
    by (vm_compute; reflexivity).
  split; [exact Hidx|].
  rewrite (proj1 (proj2 (C4_bucket_dedup alices) alice_index 3%N 5%N Hidx)).
  vm_compute. reflexivity.
Defined.

(** C5, falsified as stated: the date "2024/12/25" is read as month 2024,
    day 12, and the lookup structure gets a month outside 1..12. *)
Lemma C5_month_2024 :
  buildLookup dated_2024 = Ok index_2024
  ∧ bucket_at index_2024 2024 12 = [{| name := "A B"; images := [defaultImage ∅] |}]
  ∧ ¬ within_calendar index_2024.
Proof.
  split; [vm_compute; reflexivity|]. split; [vm_compute; reflexivity|].
  intros H. edestruct (H 2024%N) as [[_ Hm] _]; [vm_compute; reflexivity|].
  vm_compute in Hm. by apply Hm.
Qed.

(** C5 (amended): the date of a record is read at the leftmost occurrence,
    anywhere in its date string, of a run of decimal digits, a slash and a
    run of decimal digits, each run of any length; a record whose date
    field is undefined or null, or is a string without such an occurrence,
    is skipped without error and leaves the structure as if it were not
    there; the structure is built whenever every date present is a
    string, and it has a bucket exactly at the (month, day) pairs so read,
    whatever their values. *)
Theorem C5_dates_read processed :
  (Forall date_is_text (Obj.values processed) →
   ∃ idx, buildLookup processed = Ok idx)
  ∧ (∀ idx month day,
       buildLookup processed = Ok idx →
       (is_Some (bucket_lookup idx month day)
        ↔ ∃ student, student ∈ Obj.values processed ∧ dated student month day))
  ∧ (∀ student month day,
       dated student month day →
       ∃ s ms ds, field student "BirthDay" = JStr s ∧ leftmost_in ms ds s
                  ∧ month = Number ms ∧ day = Number ds)
  ∧ (∀ student,
       date_absent_or_unparsable student
       ↔ birthdayMatch (field student "BirthDay") = Ok None)
  ∧ (∀ students1 student students2 acc,
       date_absent_or_unparsable student →
       addStudent acc student = Ok acc
       ∧ reduce (students1 ++ student :: students2) ∅
         = reduce (students1 ++ students2) ∅).
Proof.
  split_and!.
  - apply reduce_total.
  - intros idx month day Hidx. rewrite (reduce_buckets _ _ _ Hidx). split.
    + intros [[b Hb]|?]; [|done]. unfold bucket_lookup in Hb.
      by rewrite lookup_empty in Hb.
    + by right.
  - intros student month day. unfold dated, birthdayMatch.
    destruct (field student "BirthDay") as [| | |n|s]; try done.
    destruct (regex_match s) as [[ms ds]|] eqn:E; [|done].
    intros [= <- <-]. exists s, ms, ds. split_and!; try done.
    by apply regex_match_leftmost.
  - intros student. unfold date_absent_or_unparsable, birthdayMatch.
    destruct (field student "BirthDay") as [| | |n|s]; try done.
    rewrite <- regex_match_None.
    destruct (regex_match s) as [[ms ds]|]; split; done.
  - intros students1 student students2 acc Hskip.
    split; [by apply addStudent_skip | by apply reduce_skip].
Qed.

Lemma C5_dates_read_witness :
  buildLookup dated_2024 = Ok index_2024
  ∧ ∃ student, student ∈ Obj.values dated_2024 ∧ dated student 2024 12.
Proof.
  assert (buildLookup dated_2024 = Ok index_2024) as Hidx
    by (vm_compute; reflexivity).
  split; [exact Hidx|].
  apply (proj1 (proj2 (C5_dates_read dated_2024)) index_2024 2024%N 12%N Hidx).
  vm_compute. eauto.
Defined.

End IndexClaims.

(** ** The cache *)

Section CacheClaims.

Import Birthday CacheSpec Samples.

Context {A : Type}.
Variable network : string → string → Z → fetched A * N.

Implicit Types (w : world A) (CACHE : cache_config).

(** A load, from a world [w] in which the key is not cached *)
Lemma fetchAndStore_result key url options w res latency :
  network url options (clock w) = (res, latency) →
  fetchAndStore network key url options w =
    (load_result res,
     {| dataCache :=
          match load_result res with
          | Ok d => <[key := {| timestamp := clock w + Z.of_N latency; data := d |}]>
                      (dataCache w)
          | Throw _ => dataCache w
          end;
        clock := clock w + Z.of_N latency;
        requests := requests w ++ [(url, options)];
        console_error :=
          match load_result res with
          | Ok _ => console_error w
          | Throw e => console_error w ++ [e]
          end |}).
Proof.
  intros Hnet. unfold fetchAndStore, fetch. rewrite Hnet.
  destruct res as [|r]; simpl; [done|].
  destruct (ok r); [destruct (json r)|]; done.
Qed.

(** With the cache enabled a failed load stores nothing, and a response
    outside 2xx is a failure carrying its status. *)
Lemma enabled_failure_not_cached CACHE url options w res latency :
  ENABLED CACHE = true →
  network url options (clock w) = (res, latency) →
  dataCache w !! (url +:+ options) = None →
  is_failure (load_result res) →
  (cachedFetch network CACHE url options w).1 = load_result res
  ∧ dataCache (cachedFetch network CACHE url options w).2 = dataCache w.
Proof.
  intros Hen Hnet Hkey Hfail. unfold cachedFetch. rewrite Hen, Hkey. simpl.
  rewrite (fetchAndStore_result _ _ _ _ res latency) by done. simpl.
  by destruct (load_result res).
Qed.

Lemma non_2xx_is_failure (r : response A) :
  ok r = false → load_result (Resolved r) = Throw (HttpError (status r)).
Proof. intros H. simpl. by rewrite H. Qed.

(** With the cache disabled nothing is ever stored. *)
Lemma disabled_stores_nothing CACHE url options w :
  ENABLED CACHE = false →
  dataCache (cachedFetch network CACHE url options w).2 = dataCache w.
Proof.
  intros Hen. unfold cachedFetch, fetch. rewrite Hen. simpl.
  destruct (network url options (clock w)) as [[|r] latency]; done.
Qed.

(** C6: a call that finds an entry younger than the time to live returns
    its payload and makes no request; an entry whose age has reached the
    time to live, the boundary included, is evicted and a load is made,
    whose result, when it succeeds, is stored with the instant of the
    store and returned; when it fails nothing is stored. *)
Theorem C6_cache_ttl CACHE url options w entry :
  ENABLED CACHE = true →
  dataCache w !! (url +:+ options) = Some entry →
  ((clock w - timestamp entry < DURATION CACHE)%Z →
     cachedFetch network CACHE url options w = (Ok (data entry), w))
  ∧ ((DURATION CACHE ≤ clock w - timestamp entry)%Z →
     ∀ res latency,
       network url options (clock w) = (res, latency) →
       let w' := (cachedFetch network CACHE url options w).2 in
       (cachedFetch network CACHE url options w).1 = load_result res
       ∧ requests w' = requests w ++ [(url, options)]
       ∧ clock w' = (clock w + Z.of_N latency)%Z
       ∧ dataCache w' =
           match load_result res with
           | Ok d => <[url +:+ options := {| timestamp := clock w'; data := d |}]>
                       (dataCache w)
           | Throw _ => delete (url +:+ options) (dataCache w)
           end).
Proof.
  intros Hen Hkey. unfold cachedFetch. rewrite Hen, Hkey. simpl. split.
  - intros Hage. apply Z.ltb_lt in Hage. by rewrite Hage.
  - intros Hage res latency Hnet. apply Z.ltb_ge in Hage. rewrite Hage.
    rewrite (fetchAndStore_result _ _ _ _ res latency) by done. simpl.
    split_and!; try done.
    destruct (load_result res); [|done]. apply insert_delete_eq.
Qed.

End CacheClaims.

Section CacheExamples.

Import Birthday CacheSpec Samples.

(** Age one below the time to live: served from the cache. *)
Lemma C6_cache_ttl_witness :
  cachedFetch (answers 200 (Some 8%nat)) CONFIG_CACHE "u" "{}" (cached_world 3600999)
  = (Ok 7%nat, cached_world 3600999).
Proof.
  apply (C6_cache_ttl (answers 200 (Some 8%nat)) CONFIG_CACHE "u" "{}"
           (cached_world 3600999) {| timestamp := 1000; data := 7%nat |}).
  - reflexivity.
  - reflexivity.
  - simpl. lia.
Defined.

(** Age equal to the time to live: loaded again. *)
Example cache_boundary_example :
  (cachedFetch (answers 200 (Some 8%nat)) CONFIG_CACHE "u" "{}" (cached_world 3601000)).1
  = Ok 8%nat.
Proof. reflexivity. Qed.

(** C7, the case the code misses: with the cache disabled, a 404 response
    whose body is JSON is returned as a success; the same response is a
    failure carrying status 404 when the cache is enabled. *)
Theorem C7_disabled_cache_returns_404_body :
  (cachedFetch (answers 404 (Some 8%nat)) CACHE_DISABLED "u" "{}" (cached_world 0)).1
  = Ok 8%nat
  ∧ (cachedFetch (answers 404 (Some 8%nat)) CONFIG_CACHE "v" "{}" (cached_world 0)).1
    = Throw (HttpError 404).
Proof. split; reflexivity. Qed.

End CacheExamples.

(** ** Countdown labels *)

Section CountdownClaims.

Import JS CountdownSpec.

Local Open Scope Z_scope.

Lemma div_of_rem a b c :
  0 ≤ a → 0 < b → 0 < c → Z.rem a (b * c) / b = (a / b) mod c.
Proof.
  intros Ha Hb Hc. rewrite Z.rem_mod_nonneg by lia.
  rewrite Z.rem_mul_r by lia.
  rewrite (Z.mul_comm b), Z.div_add by lia.
  rewrite Z.div_small by (apply Z.mod_pos_bound; lia). lia.
Qed.

Lemma days_shown a : 0 ≤ a → (0 <? a / 86400000) = negb (a / 86400000 =? 0).
Proof.
  intros Ha. pose proof (Z.div_pos a 86400000 Ha ltac:(lia)).
  destruct (Z.eqb_spec (a / 86400000) 0) as [->|Hne]; simpl; [done|].
  apply Z.ltb_lt. lia.
Qed.

(** Both formatters agree with the decomposition by floor division. *)
Lemma formatTimeRemaining_spec ms :
  0 ≤ ms → Events.formatTimeRemaining ms = duration_text ms.
Proof.
  intros Hms. unfold Events.formatTimeRemaining, duration_text.
  change (1000 * 60 * 60 * 24) with (3600000 * 24).
  change (1000 * 60 * 60) with (60000 * 60) at 2.
  change (1000 * 60 * 60) with 3600000.
  change (1000 * 60) with 60000.
  rewrite !div_of_rem by lia.
  change (3600000 * 24) with 86400000.
  rewrite days_shown by done. by destruct (_ =? 0).
Qed.

Lemma formatDuration_spec ms :
  0 ≤ ms → Utils.formatDuration ms = duration_text ms.
Proof. apply formatTimeRemaining_spec. Qed.

(** The parts of a duration: what is shown never exceeds it, and misses
    less than a minute of it. *)
Lemma duration_parts ms :
  0 ≤ ms →
  let days := ms / 86400000 in
  let hours := (ms / 3600000) mod 24 in
  let minutes := (ms / 60000) mod 60 in
  0 ≤ days ∧ 0 ≤ hours < 24 ∧ 0 ≤ minutes < 60
  ∧ days * 86400000 + hours * 3600000 + minutes * 60000 ≤ ms
  ∧ ms < days * 86400000 + hours * 3600000 + minutes * 60000 + 60000.
Proof.
  intros Hms days hours minutes. subst days hours minutes.
  pose proof (Z.div_mod ms 60000 ltac:(lia)) as E1.
  pose proof (Z.mod_pos_bound ms 60000 ltac:(lia)) as B1.
  pose proof (Z.div_mod (ms / 60000) 60 ltac:(lia)) as E2.
  pose proof (Z.mod_pos_bound (ms / 60000) 60 ltac:(lia)) as B2.
  pose proof (Z.div_mod (ms / 3600000) 24 ltac:(lia)) as E3.
  pose proof (Z.mod_pos_bound (ms / 3600000) 24 ltac:(lia)) as B3.
  assert (ms / 60000 / 60 = ms / 3600000) as E4
    by (rewrite Z.div_div by lia; done).
  assert (ms / 3600000 / 24 = ms / 86400000) as E5
    by (rewrite Z.div_div by lia; done).
  pose proof (Z.div_pos ms 86400000 Hms ltac:(lia)).
  rewrite E4 in E2. rewrite E5 in E3. lia.
Qed.

(** C8, falsified as stated: for a window whose end comes before its
    start, at an instant from the end on and before the start, the label
    is not "Event Ended" but "Starts in: ...": the test on the start is
    made first. *)
Lemma C8_end_before_start :
  0 ≤ 5
  ∧ Events.getTimerDisplayText 5 10 0 = "Starts in: 0h 0m"
  ∧ Utils.calculateTimeLeft 5 10 0 = "Starts in: 0h 0m"
  ∧ Events.getTimerDisplayText 5 10 0 ≠ "Event Ended".
Proof. split_and!; [lia | reflexivity | reflexivity | discriminate]. Qed.

(** C8 (amended): the label is "Starts in: " and the duration to the
    start before the start, "Time Left: " and the duration to the end
    from the start on and before the end, and "Event Ended" from the end
    on when the start is not in the future, which is the case of every
    window with [start <= endTime]; the duration is written with days,
    hours and minutes obtained by floor division, without the days when
    there are none; 90000 ms is "0h 1m" and 90000000 ms is "1d 1h 0m". *)
Theorem C8_countdown_text now start endTime :
  (now < start →
     Events.getTimerDisplayText now start endTime
     = "Starts in: " +:+ duration_text (start - now))
  ∧ (start ≤ now < endTime →
     Events.getTimerDisplayText now start endTime
     = "Time Left: " +:+ duration_text (endTime - now))
  ∧ (start ≤ now → endTime ≤ now →
     Events.getTimerDisplayText now start endTime = "Event Ended")
  ∧ (start ≤ endTime → endTime ≤ now →
     Events.getTimerDisplayText now start endTime = "Event Ended")
  ∧ Utils.calculateTimeLeft now start endTime
    = Events.getTimerDisplayText now start endTime
  ∧ Events.formatTimeRemaining 90000 = "0h 1m"
  ∧ Events.formatTimeRemaining 90000000 = "1d 1h 0m".
Proof.
  unfold Events.getTimerDisplayText, Utils.calculateTimeLeft.
  assert (start ≤ now → endTime ≤ now →
          (if now <? start
           then "Starts in: " +:+ Events.formatTimeRemaining (start - now)
           else if now <? endTime
                then "Time Left: " +:+ Events.formatTimeRemaining (endTime - now)
                else "Event Ended") = "Event Ended") as Hended.
  { intros H1 H. apply Z.ltb_ge in H1. apply Z.ltb_ge in H. by rewrite H1, H. }
  split_and!; try reflexivity.
  - intros H. apply Z.ltb_lt in H as H'. rewrite H'.
    by rewrite formatTimeRemaining_spec by lia.
  - intros [H1 H2]. apply Z.ltb_ge in H1. apply Z.ltb_lt in H2.
    rewrite H1, H2. by rewrite formatTimeRemaining_spec by lia.
  - exact Hended.
  - intros Hwin H. apply Hended; lia.
Qed.

Lemma C8_countdown_text_witness :
  Events.getTimerDisplayText 129600000 200000000 300000000
  = "Starts in: " +:+ duration_text (200000000 - 129600000)
  ∧ Events.getTimerDisplayText 400000000 200000000 300000000 = "Event Ended".
Proof.
  destruct (C8_countdown_text 129600000 200000000 300000000) as (Hbefore & _).
  destruct (C8_countdown_text 400000000 200000000 300000000)
    as (_ & _ & _ & Hended & _).
  split; [apply Hbefore; lia | apply Hended; lia].
Defined.

End CountdownClaims.

(** ** Timers *)

Section TimerClaims.

Import Browser Samples.

(** The update function of Utils.js never touches the arrays of timer
    ids. *)
Lemma updateTimer_keeps_arrays env now st :
  arrays (Utils.updateTimer env now st) = arrays st.
Proof.
  unfold Utils.updateTimer. destruct (closures st !! env) as [c|]; [|done].
  simpl. destruct (getElementById _ _); case_decide; done.
Qed.

(** In Events2.js, when no global [timerIds] exists, a tick that finds no
    element leaves the interval running and the handle tracked. *)
Lemma updateEventTimer_unbound startTime endTime timerId now st :
  global_timerIds st = None →
  getElementById (JS.string_of_nat timerId) st = None →
  Events.updateEventTimer startTime endTime timerId now st
  = log (Uncaught Birthday.ReferenceError) st.
Proof.
  intros Hg Hel. unfold Events.updateEventTimer, Events.cleanup_from_updateEventTimer.
  by rewrite Hel, Hg.
Qed.

(** C9, where the code departs from it.  Utils.js: the tick that finds
    the element missing cancels the interval but leaves its handle in the
    array of timer ids, and the interval created by [setInterval(1000)]
    stays active.  Events2.js: the update function looks for an element
    named after the interval handle, finds none although the display
    element is present, and the clean-up call fails on the unbound
    [timerIds]: the interval stays active and tracked, and the next tick
    invokes the update function again. *)
Theorem C9_timer_cleanup_diverges :
  (tracked 0 utils_created = [2%nat]
   ∧ intervals utils_after_tick !! 2%nat = None
   ∧ tracked 0 utils_after_tick = [2%nat]
   ∧ intervals utils_after_tick !! 1%nat = Some NotAFunction)
  ∧ (tracked 0 events_started = [2%nat]
     ∧ document events_started !! "event-timer-1" = Some ""
     ∧ trace events_after_tick = [Invoked 2; Uncaught Birthday.ReferenceError]
     ∧ is_Some (intervals events_after_tick !! 2%nat)
     ∧ tracked 0 events_after_tick = [2%nat]
     ∧ trace events_after_two_ticks
       = [Invoked 2; Uncaught Birthday.ReferenceError;
          Invoked 2; Uncaught Birthday.ReferenceError]
     ∧ document events_after_two_ticks !! "event-timer-1" = Some "").
Proof.
  split; split_and!; try (vm_compute; reflexivity).
  vm_compute. eauto.
Qed.

End TimerClaims.

(** ** Expired events *)

Section ExpiryClaims.

Import Utils Events Samples.

Variable Date_parse : string → option Z.
Variable eventCard : string → eventData → string.
Variable displayedInstant : time_value → Z.

Local Open Scope Z_scope.

Lemma processEvent_expired timerIds now p eventNum ev :
  hasExpired Date_parse now (end_ ev) = true →
  innerEventsCell (processEvent Date_parse eventCard displayedInstant timerIds now p (eventNum, ev))
  = innerEventsCell p
  ∧ page (processEvent Date_parse eventCard displayedInstant timerIds now p (eventNum, ev))
    = page p.
Proof. intros H. unfold processEvent. by rewrite H. Qed.

Lemma processEvents_expired timerIds now entries p :
  Forall (λ entry, hasExpired Date_parse now (end_ entry.2) = true) entries →
  innerEventsCell (foldl (processEvent Date_parse eventCard displayedInstant timerIds now) p entries)
  = innerEventsCell p
  ∧ page (foldl (processEvent Date_parse eventCard displayedInstant timerIds now) p entries)
    = page p.
Proof.
  revert p. induction entries as [|[eventNum ev] entries IH]; intros p Hall; [done|].
  apply Forall_cons in Hall as [Hev Hall]. cbn [foldl].
  destruct (IH (processEvent Date_parse eventCard displayedInstant timerIds now p (eventNum, ev)) Hall)
    as [-> ->].
  by apply processEvent_expired.
Qed.

(** C10: [hasExpired] is true exactly when the end, resolved to an
    instant, is at or before the present instant; a numeric end below
    10^12 is taken as seconds and multiplied by 1000, any other numeric
    end is taken as milliseconds; and an event for which it is true adds
    nothing to what [processEventPair] renders and sets up no timer. *)
Theorem C10_expired_events_skipped now :
  (∀ endTime,
     hasExpired Date_parse now endTime = true
     ↔ ∃ t, expirationTime Date_parse endTime = Some t ∧ t ≤ now)
  ∧ (∀ n, n < 10 ^ 12 →
          expirationTime Date_parse (TimeNumber n) = Some (n * 1000))
  ∧ (∀ n, 10 ^ 12 ≤ n →
          expirationTime Date_parse (TimeNumber n) = Some n)
  ∧ (∀ s, expirationTime Date_parse (TimeString s) = Date_parse s)
  ∧ (∀ timerIds p eventNum ev,
       hasExpired Date_parse now (end_ ev) = true →
       innerEventsCell (processEvent Date_parse eventCard displayedInstant timerIds now p (eventNum, ev))
       = innerEventsCell p
       ∧ page (processEvent Date_parse eventCard displayedInstant timerIds now p (eventNum, ev))
         = page p)
  ∧ (∀ timerIds st eventEntries,
       Forall (λ entry, hasExpired Date_parse now (end_ entry.2) = true) eventEntries →
       innerEventsCell (processEventPair Date_parse eventCard displayedInstant eventEntries timerIds now st)
       = ""
       ∧ page (processEventPair Date_parse eventCard displayedInstant eventEntries timerIds now st)
         = st).
Proof.
  split_and!.
  - intros endTime. unfold hasExpired.
    destruct (expirationTime Date_parse endTime) as [t|]; split.
    + intros H. exists t. split; [done | by apply Z.leb_le].
    + intros (t' & [= <-] & H). by apply Z.leb_le.
    + done.
    + by intros (t' & ? & _).
  - intros n Hn. simpl. apply Z.ltb_lt in Hn. by rewrite Hn.
  - intros n Hn. simpl. apply Z.ltb_ge in Hn. by rewrite Hn.
  - done.
  - intros. by apply processEvent_expired.
  - intros timerIds st eventEntries Hall. unfold processEventPair.
    by apply (processEvents_expired timerIds now eventEntries
                {| innerEventsCell := ""; console_log := []; page := st |}).
Qed.

End ExpiryClaims.

Section ExpiryExamples.

Import Utils Events Samples.

(** An event that ends at the present instant (1700000000 s) is skipped. *)
Lemma C10_expired_events_skipped_witness :
  hasExpired no_dates 1700000000000 (TimeNumber 1700000000) = true
  ∧ innerEventsCell
      (processEventPair no_dates plain_card (λ _, 0%Z)
         [("801", ended_at 1700000000)] 0 1700000000000 (page_with "x"))
    = "".
Proof.
  destruct (C10_expired_events_skipped no_dates plain_card (λ _, 0%Z) 1700000000000)
    as (Hexp & _ & _ & _ & _ & Hskip).
  split.
  - apply Hexp. exists 1700000000000%Z. split; [reflexivity | lia].
  - apply Hskip. repeat constructor.
Defined.

End ExpiryExamples.

(** ** More on the merge *)

Section MergeMore.

Import JS Birthday MergeSpec Samples.

Implicit Types (o : Obj.t record) (c t : record) (st : merge_state).

Lemma customId_not_index n : Obj.array_index (customId n) = None.
Proof.
  unfold Obj.array_index, customId.
  change ("DVDOOM_" +:+ string_of_nat n)
    with (String "D" ("VDOOM_" +:+ string_of_nat n)).
  simpl. by destruct (NilEmpty.uint_of_string _).
Qed.

Lemma keys_set_generated n (v : record) o :
  Obj.get (customId n) o = None →
  Obj.keys (Obj.set (customId n) v o) = Obj.keys o ++ [customId n].
Proof.
  intros Hnone. unfold Obj.set. rewrite Hnone, customId_not_index.
  unfold Obj.keys. by rewrite fmap_app.
Qed.

(** What one custom record does to the list of keys *)
Lemma apply_keys st c :
  prototype_fields_only st →
  Obj.keys (processedData (applyCustomStudent st c)) =
    Obj.keys (processedData st)
    ++ (if truthy (field c "Id") then []
        else match Obj.get (customId (length (Obj.keys (processedData st))))
                     (processedData st) with
             | Some _ => []
             | None => [customId (length (Obj.keys (processedData st)))]
             end).
Proof.
  intros Hp. destruct (truthy (field c "Id")) eqn:Hid.
  - rewrite app_nil_r.
    destruct (Obj.get (ToString (field c "Id")) (processedData st)) as [t|] eqn:Ht.
    + rewrite (apply_override _ _ t) by done. simpl.
      apply keys_set_Some. rewrite Ht. eauto.
    + by rewrite apply_unknown_data.
  - rewrite apply_addition by done. simpl.
    rewrite keys_set_Some by (rewrite get_set_eq; eauto).
    destruct (Obj.get _ (processedData st)) as [t|] eqn:Ht.
    + rewrite app_nil_r. apply keys_set_Some. rewrite Ht. eauto.
    + by apply keys_set_generated.
Qed.

(** X1: whatever the inputs, the keys of the merged set are the official
    keys, in their order, followed by generated keys only: no key is
    removed or moved, and every key that is added is a generated one. *)
Theorem merge_keeps_official_keys officialData customData :
  ∃ added,
    Obj.keys (working officialData customData) = Obj.keys officialData ++ added
    ∧ Forall (λ k, is_synthetic k = true) added.
Proof.
  unfold working.
  induction customData as [|c l IH] using rev_ind.
  - exists []. split; [by rewrite app_nil_r | done].
  - destruct IH as (added & Hkeys & Hall).
    rewrite process_snoc, apply_keys, Hkeys by apply process_fields_only.
    destruct (truthy (field c "Id")).
    + exists added. by rewrite app_nil_r.
    + destruct (Obj.get _ _).
      * exists added. by rewrite app_nil_r.
      * eexists (added ++ [_]). rewrite app_assoc. split; [done|].
        apply Forall_app. split; [done|].
        apply Forall_singleton, customId_synthetic.
Qed.

(** X2: a record whose key is not of the generated form and is carried by
    no custom record comes out of the merge as it went in. *)
Theorem merge_leaves_unreferenced officialData customData k :
  is_synthetic k = false →
  Forall (λ c, ¬ carries c k) customData →
  Obj.get k (working officialData customData) = Obj.get k officialData.
Proof.
  intros Hk Hall. unfold working.
  induction customData as [|c l IH] using rev_ind; [done|].
  apply Forall_app in Hall as [Hl Hc]. rewrite Forall_singleton in Hc.
  rewrite process_snoc, <- (IH Hl).
  pose proof (process_fields_only officialData l) as Hp.
  destruct (truthy (field c "Id")) eqn:Hid.
  - assert (ToString (field c "Id") ≠ k) as Hne by (intros E; by apply Hc).
    destruct (Obj.get (ToString (field c "Id"))
                (processedData (processCustomData officialData l))) as [t|] eqn:Ht.
    + rewrite (apply_override _ _ t) by done. simpl. by rewrite get_set_ne.
    + by rewrite apply_unknown_data.
  - rewrite get_after_addition by done. rewrite decide_False; [done|].
    intros E. rewrite <- E, customId_synthetic in Hk. done.
Qed.

Lemma merge_leaves_unreferenced_witness :
  Obj.get "A" (working official_A [custom_W; custom_unknown])
  = Obj.get "A" official_A.
Proof.
  apply (merge_leaves_unreferenced official_A [custom_W; custom_unknown] "A").
  - reflexivity.
  - repeat constructor; intros [Hid Hkey]; vm_compute in Hid, Hkey; discriminate.
Defined.

Lemma apply_other_fields st c k t :
  prototype_fields_only st →
  generated_below (processedData st) →
  Obj.get k (processedData st) = Some t →
  ∃ r, Obj.get k (processedData (applyCustomStudent st c)) = Some r
       ∧ ∀ f, f ∉ custom_fields → r !! f = t !! f.
Proof.
  intros Hp Hinv Hget. destruct (truthy (field c "Id")) eqn:Hid.
  - destruct (Obj.get (ToString (field c "Id")) (processedData st)) as [t'|] eqn:Ht.
    + rewrite (apply_override _ _ t') by done. simpl.
      destruct (decide (ToString (field c "Id") = k)) as [E|E].
      * subst k. rewrite get_set_eq. simplify_eq.
        eexists. split; [done|]. intros f Hf. by apply lookup_assignCustom_other.
      * rewrite get_set_ne by done. by exists t.
    + rewrite apply_unknown_data by done. by exists t.
  - rewrite get_after_addition by done. rewrite decide_False; [by exists t|].
    intros E. subst k. rewrite Hinv in Hget; done.
Qed.

(** X3: when no official key has the generated form, the merge changes
    nothing of an official record but the four assigned fields: every
    other field, the identifier included, keeps its value (or its
    absence) through any list of custom records. *)
Theorem merge_touches_four_fields officialData customData k t :
  namespace_free officialData = true →
  Obj.get k officialData = Some t →
  ∃ r, Obj.get k (working officialData customData) = Some r
       ∧ ∀ f, f ∉ custom_fields → r !! f = t !! f.
Proof.
  intros Hfree Hget. unfold working.
  induction customData as [|c l IH] using rev_ind; [by exists t|].
  destruct IH as (r & Hr & Hsame). rewrite process_snoc.
  destruct (apply_other_fields (processCustomData officialData l) c k r)
    as (r' & Hr' & Hsame'); [| |done|].
  - apply process_fields_only.
  - apply (process_generated officialData l). by apply namespace_free_generated.
  - exists r'. split; [done|]. intros f Hf. rewrite Hsame' by done. by apply Hsame.
Qed.

Lemma merge_touches_four_fields_witness :
  ∃ r, Obj.get "A" (working official_A [custom_Y; custom_W; custom_Z]) = Some r
       ∧ r !! "Id" = Some (JStr "A").
Proof.
  destruct (merge_touches_four_fields official_A [custom_Y; custom_W; custom_Z]
              "A" {[ "Id" := JStr "A"; "FamilyName" := JStr "X" ]} eq_refl eq_refl)
    as (r & Hr & Hsame).
  exists r. split; [exact Hr|]. rewrite Hsame; [reflexivity|].
  vm_compute. intros H.
  repeat (apply elem_of_cons in H as [H|H]; [discriminate H|]).
  by apply elem_of_nil in H.
Defined.

(** X4: when no official key has the generated form, the merged set has
    one key more than the official set per custom record without
    identifier, and the added keys are numbered consecutively from the
    number of official keys, in list order. *)
Theorem merge_counts_additions officialData customData :
  namespace_free officialData = true →
  Obj.keys (working officialData customData) =
    Obj.keys officialData
    ++ (customId <$> seq (length (Obj.keys officialData))
                       (length (filter (λ c, truthy (field c "Id") = false) customData))).
Proof.
  intros Hfree. unfold working.
  induction customData as [|c l IH] using rev_ind.
  - simpl. by rewrite app_nil_r.
  - rewrite process_snoc, apply_keys, filter_app, length_app
      by apply process_fields_only.
    assert (generated_below (processedData (processCustomData officialData l))) as Hinv
      by (apply (process_generated officialData l); by apply namespace_free_generated).
    rewrite Hinv by done. rewrite IH at 1.
    rewrite filter_cons, filter_nil.
    destruct (truthy (field c "Id")) eqn:Hid.
    + rewrite decide_False by done. simpl. by rewrite Nat.add_0_r, app_nil_r.
    + rewrite decide_True by done. simpl.
      rewrite seq_app, fmap_app, app_assoc. simpl. do 3 f_equal.
      rewrite IH, length_app, length_fmap, length_seq. done.
Qed.

Lemma merge_counts_additions_witness :
  Obj.keys (working official_A [custom_W; custom_Y; custom_W])
  = ["A"; "DVDOOM_1"; "DVDOOM_2"].
Proof.
  apply (merge_counts_additions official_A [custom_W; custom_Y; custom_W]).
  reflexivity.
Defined.

End MergeMore.

(** ** More on the lookup structure *)

Section IndexMore.

Import JS Birthday IndexSpec BirthdayView Samples.

Implicit Types (sd e : DisplayEntry) (b : list DisplayEntry) (acc idx : Index).

Lemma lists_addToBucket_old sd b nm img :
  lists b nm img → lists (addToBucket sd b) nm img.
Proof.
  intros (e & He & Hn & Hi). unfold addToBucket.
  destruct (list_find _ b) as [[i e0]|] eqn:Hfind.
  - destruct (includes _ _); [by exists e|].
    apply list_elem_of_lookup in He as [j Hj].
    destruct (decide (j = i)) as [->|Hne].
    + exists (push_image (default JUndefined (head (images sd))) e).
      split_and!; [|done|simpl; apply elem_of_app; by left].
      apply list_elem_of_lookup. exists i.
      by rewrite list_lookup_alter_eq, Hj.
    + exists e. split_and!; [|done..].
      apply list_elem_of_lookup. exists j.
      by rewrite list_lookup_alter_ne.
  - exists e. split_and!; [|done..]. apply elem_of_app. by left.
Qed.

Lemma lists_addToBucket_new sd b img :
  images sd = [img] → lists (addToBucket sd b) (name sd) img.
Proof.
  intros Himg. unfold addToBucket. rewrite Himg. simpl.
  destruct (list_find _ b) as [[i e0]|] eqn:Hfind.
  - apply list_find_Some in Hfind as (Hi & He & _).
    destruct (includes _ _) eqn:Hinc.
    + apply includes_true in Hinc. exists e0.
      split_and!; [by eapply list_elem_of_lookup_2 | done..].
    + exists (push_image img e0).
      split_and!; [|done|simpl; apply elem_of_app; right; by left].
      apply list_elem_of_lookup. exists i.
      by rewrite list_lookup_alter_eq, Hi.
  - exists sd. split_and!; [|done|rewrite Himg; by left].
    apply elem_of_app. right. by left.
Qed.

Lemma lists_addToBucket_inv sd b img0 nm img :
  images sd = [img0] →
  lists (addToBucket sd b) nm img →
  lists b nm img ∨ (nm = name sd ∧ img = img0).
Proof.
  intros Himg (e & He & Hn & Hi). revert He. unfold addToBucket.
  rewrite Himg. simpl.
  destruct (list_find _ b) as [[i e0]|] eqn:Hfind.
  - apply list_find_Some in Hfind as (Hi0 & He0 & _).
    destruct (includes _ _); [intros He; left; by exists e|].
    intros [j Hj]%list_elem_of_lookup.
    destruct (decide (j = i)) as [->|Hne].
    + rewrite list_lookup_alter_eq, Hi0 in Hj. simpl in Hj. simplify_eq.
      simpl in Hi. apply elem_of_app in Hi as [Hi|Hi].
      * left. exists e0. split_and!; [by eapply list_elem_of_lookup_2 | done..].
      * right. apply list_elem_of_singleton in Hi. done.
    + rewrite list_lookup_alter_ne in Hj by done. left. exists e.
      split_and!; [by eapply list_elem_of_lookup_2 | done..].
  - intros [He|He]%elem_of_app; [left; by exists e|].
    apply list_elem_of_singleton in He. subst e. right.
    rewrite Himg in Hi. apply list_elem_of_singleton in Hi. done.
Qed.

Lemma lists_nil nm img : ¬ lists [] nm img.
Proof. intros (e & He & _). by apply elem_of_nil in He. Qed.

Lemma reduce_lists rs acc idx m d nm img :
  reduce rs acc = Ok idx →
  lists (bucket_at idx m d) nm img
  ↔ lists (bucket_at acc m d) nm img
    ∨ ∃ r, r ∈ rs ∧ dated r m d ∧ name_of r = nm ∧ image_of r = img.
Proof.
  revert acc. induction rs as [|r rs IH]; intros acc; simpl.
  - intros [= <-]. split; [by left|].
    intros [?|(r & Hr & _)]; [done | by apply elem_of_nil in Hr].
  - destruct (addStudent acc r) as [acc'|] eqn:E; [|done].
    intros Hrs. rewrite (IH _ Hrs).
    apply addStudent_Ok in E as [[Hnone ->]|(m0 & d0 & Hdated & ->)].
    + split; (intros [?|(r' & Hr' & ?)]; [by left|right]).
      * exists r'. split; [by right | done].
      * apply elem_of_cons in Hr' as [->|Hr']; [|by exists r'].
        unfold dated in *. destruct H as [H _]. congruence.
    + rewrite (bucket_at_lookup (<[_ := _]> _)), bucket_lookup_insert.
      destruct (decide (m = m0 ∧ d = d0)) as [[-> ->]|Hmd]; simpl.
      * split.
        -- intros [Hl|(r' & Hr' & ?)].
           ++ apply (lists_addToBucket_inv _ _ (image_of r)) in Hl as [?|[-> ->]];
                [by left| |done].
              right. exists r. split; [left | done].
           ++ right. exists r'. split; [by right | done].
        -- intros [Hl|(r' & Hr' & Hd' & <- & <-)].
           ++ left. by apply lists_addToBucket_old.
           ++ apply elem_of_cons in Hr' as [->|Hr'].
              ** left. by apply lists_addToBucket_new.
              ** right. by exists r'.
      * rewrite <- bucket_at_lookup. split.
        -- intros [?|(r' & Hr' & ?)]; [by left|].
           right. exists r'. split; [by right | done].
        -- intros [?|(r' & Hr' & Hd' & ? & ?)]; [by left|].
           apply elem_of_cons in Hr' as [->|Hr']; [|right; by exists r'].
           unfold dated in *. rewrite Hdated in Hd'. injection Hd' as -> ->.
           by destruct Hmd.
Qed.

(** X5: in the lookup structure, an image is listed under a name in the
    bucket of a date exactly when some record read with that date has
    that display name and brings that image: nothing is lost, nothing is
    made up. *)
Theorem index_lists_exactly processed idx month day nm img :
  buildLookup processed = Ok idx →
  lists (bucket_at idx month day) nm img
  ↔ ∃ student, student ∈ Obj.values processed ∧ dated student month day
               ∧ name_of student = nm ∧ image_of student = img.
Proof.
  intros Hidx. rewrite (reduce_lists _ _ _ _ _ _ _ Hidx). split.
  - intros [Hl|?]; [|done]. unfold bucket_at in Hl.
    rewrite lookup_empty in Hl. simpl in Hl. rewrite lookup_empty in Hl.
    by apply lists_nil in Hl.
  - by right.
Qed.

Lemma index_lists_exactly_witness :
  lists (bucket_at alice_index 3 5) "Alice Smith" (JStr "img2").
Proof.
  apply (index_lists_exactly alices alice_index 3 5 "Alice Smith" (JStr "img2")).
  - vm_compute. reflexivity.
  - exists (alice "img2"). split; [|vm_compute; done].
    right. left.
Defined.

End IndexMore.

(** ** Dates written from numbers, and the empty structure *)

Section DateMore.

Import JS Birthday IndexSpec BirthdayView Samples.

Lemma all_digits_of_uint d : all_digits (NilEmpty.string_of_uint d) = true.
Proof. induction d; simpl; done. Qed.

Lemma to_uint_not_nil n : N.to_uint n ≠ Decimal.Nil.
Proof.
  intros Hn. pose proof (DecimalN.Unsigned.to_of (N.to_uint n)) as E.
  rewrite DecimalN.Unsigned.of_to, Hn in E. discriminate E.
Qed.

Lemma string_of_N_run n : digit_run (string_of_N n).
Proof.
  unfold string_of_N. pose proof (to_uint_not_nil n) as Hn.
  destruct (N.to_uint n) eqn:E; [done|..]; (split; [done|]);
    apply (all_digits_of_uint (_ _)).
Qed.

(** An integer below 2^53 is a double. *)
Lemma to_double_small n : (n < 2 ^ 53)%N → to_double n = n.
Proof.
  intros Hn. unfold to_double.
  assert (N.size n ≤ 53)%N as Hsize.
  { destruct (decide (n = 0%N)) as [->|Hne]; [done|].
    rewrite N.size_log2 by done.
    apply N.le_succ_l, N.log2_lt_pow2; [lia | done]. }
  apply N.leb_le in Hsize. by rewrite Hsize.
Qed.

Lemma Number_string_of_N n : (n < 2 ^ 53)%N → Number (string_of_N n) = n.
Proof.
  intros Hsmall.
  unfold Number, string_of_N. pose proof (to_uint_not_nil n) as Hn.
  assert (NilZero.string_of_uint (N.to_uint n)
          = NilEmpty.string_of_uint (N.to_uint n)) as ->
    by by destruct (N.to_uint n).
  rewrite NilEmpty.usu, DecimalN.Unsigned.of_to. by apply to_double_small.
Qed.

(** Above 2^53 the digits are read as the nearest double. *)
Example date_rounded :
  birthdayMatch (JStr "9007199254740993/1") = Ok (Some (9007199254740992%N, 1%N))
  ∧ birthdayMatch (JStr "9007199254740995/1") = Ok (Some (9007199254740996%N, 1%N)).
Proof. split; vm_compute; reflexivity. Qed.

Lemma app_empty_r s : s +:+ "" = s.
Proof. induction s as [|c s IH]; [done|]. by rewrite app_cons, IH. Qed.

(** Two runs of digits, each followed by something that is not a digit,
    are the same run when the wholes are the same. *)
Lemma digits_split a b x y :
  all_digits a = true → all_digits b = true →
  starts_with_digit x = false → starts_with_digit y = false →
  a +:+ x = b +:+ y → a = b ∧ x = y.
Proof.
  revert b. induction a as [|c a IH]; intros [|c' b] Ha Hb Hx Hy E.
  - done.
  - rewrite app_empty, app_cons in E. subst x. simpl in *.
    apply andb_true_iff in Hb as [Hc _]. congruence.
  - rewrite app_empty, app_cons in E. subst y. simpl in *.
    apply andb_true_iff in Ha as [Hc _]. congruence.
  - rewrite !app_cons in E. injection E as -> E. simpl in *.
    apply andb_true_iff in Ha as [_ Ha]. apply andb_true_iff in Hb as [_ Hb].
    destruct (IH b Ha Hb Hx Hy E) as [-> ->]. done.
Qed.

(** A string that is a month, a slash and a day is read as that month
    and that day. *)
Lemma regex_match_exact ms ds :
  digit_run ms → digit_run ds →
  regex_match (ms +:+ "/" +:+ ds) = Some (ms, ds).
Proof.
  intros Hm Hd.
  destruct (match_here_occurs ms ds "" Hm Hd) as [[m' d'] Hg].
  rewrite app_empty_r in Hg.
  assert (regex_match (ms +:+ "/" +:+ ds) = Some (m', d')) as ->.
  { destruct Hm as [Hne _]. destruct ms as [|c ms]; [done|].
    rewrite app_cons in *. simpl. by rewrite Hg. }
  apply match_here_day in Hg as (post & E & [_ Hm'] & [_ Hd'] & Hpost).
  destruct Hm as [_ Hm]. destruct Hd as [_ Hd].
  apply digits_split in E as [-> E]; [|done..].
  injection E as E. rewrite !app_empty in E.
  assert (ds +:+ "" = d' +:+ post) as E' by by rewrite app_empty_r.
  apply digits_split in E' as [-> _]; done.
Qed.

(** X6: a date written as the decimal numerals of a month and a day
    below 2^53 around a slash is read back as that month and that day;
    a zero put before a numeral does not change what is read. *)
Theorem date_round_trip month day :
  (month < 2 ^ 53)%N → (day < 2 ^ 53)%N →
  birthdayMatch (JStr (string_of_N month +:+ "/" +:+ string_of_N day))
  = Ok (Some (month, day))
  ∧ birthdayMatch
      (JStr (("0" +:+ string_of_N month) +:+ "/" +:+ ("0" +:+ string_of_N day)))
    = Ok (Some (month, day)).
Proof.
  intros Hmonth Hday.
  assert (∀ n, digit_run ("0" +:+ string_of_N n)) as Hpad.
  { intros n. destruct (string_of_N_run n) as [_ H]. split; [done|].
    by rewrite app_cons, app_empty. }
  assert (∀ n, (n < 2 ^ 53)%N → Number ("0" +:+ string_of_N n) = n) as Hnum.
  { intros n Hn. rewrite <- (Number_string_of_N n Hn) at 2.
    rewrite app_cons, app_empty. unfold Number. simpl.
    by destruct (NilEmpty.uint_of_string (string_of_N n)). }
  split; unfold birthdayMatch.
  - rewrite regex_match_exact by apply string_of_N_run.
    by rewrite !Number_string_of_N.
  - rewrite (regex_match_exact ("0" +:+ string_of_N month) ("0" +:+ string_of_N day))
      by apply Hpad.
    by rewrite !Hnum.
Qed.

Lemma date_round_trip_witness :
  birthdayMatch (JStr "3/5") = Ok (Some (3%N, 5%N))
  ∧ birthdayMatch (JStr "03/05") = Ok (Some (3%N, 5%N)).
Proof.
  apply (date_round_trip 3 5); reflexivity.
Defined.

(** Every month of the structure has a day. *)
Lemma reduce_months rs acc idx :
  (∀ m byDay, acc !! m = Some byDay → byDay ≠ ∅) →
  reduce rs acc = Ok idx →
  ∀ m byDay, idx !! m = Some byDay → byDay ≠ ∅.
Proof.
  revert acc. induction rs as [|r rs IH]; intros acc Hacc; simpl.
  - by intros [= <-].
  - destruct (addStudent acc r) as [acc'|] eqn:E; [|done].
    apply IH. apply addStudent_Ok in E as [[_ ->]|(m0 & d0 & _ & ->)]; [done|].
    intros m byDay. destruct (decide (m = m0)) as [->|Hne].
    + rewrite lookup_insert_eq. intros [= <-]. apply insert_non_empty.
    + rewrite lookup_insert_ne by done. apply Hacc.
Qed.

(** X7: the structure is found empty, which makes the start-up report
    'No birthday data available', exactly when no record has a date that
    is read. *)
Theorem no_data_iff_no_dates processed idx :
  buildLookup processed = Ok idx →
  noBirthdayData idx = true
  ↔ ∀ student month day,
      student ∈ Obj.values processed → ¬ dated student month day.
Proof.
  intros Hidx. unfold noBirthdayData. rewrite bool_decide_eq_true, map_size_empty_iff.
  split.
  - intros -> student month day Hin Hd.
    assert (is_Some (bucket_lookup (∅ : Index) month day)) as [b Hb].
    { apply (reduce_buckets _ _ _ Hidx). right. by exists student. }
    unfold bucket_lookup in Hb. by rewrite lookup_empty in Hb.
  - intros Hnone. apply map_empty. intros m.
    destruct (idx !! m) as [byDay|] eqn:Hm; [|done].
    assert (byDay ≠ ∅) as Hne.
    { apply (reduce_months _ _ _ (λ m0 b0 H, match lookup_empty_Some _ _ H with end)
               Hidx m). done. }
    apply map_choose in Hne as (d & b & Hb).
    assert (is_Some (bucket_lookup idx m d)) as Hsome
      by (unfold bucket_lookup; rewrite Hm; simpl; eauto).
    apply (reduce_buckets _ _ _ Hidx) in Hsome as [[? Hb0]|(r & Hr & Hd)].
    + unfold bucket_lookup in Hb0. by rewrite lookup_empty in Hb0.
    + by destruct (Hnone r m d).
Qed.

Lemma no_data_iff_no_dates_witness :
  noBirthdayData alice_index = false.
Proof.
  assert (buildLookup alices = Ok alice_index) as Hidx
    by (vm_compute; reflexivity).
  destruct (noBirthdayData alice_index) eqn:E; [|reflexivity].
  exfalso.
  apply (proj1 (no_data_iff_no_dates alices alice_index Hidx) E
           (alice "img1") 3%N 5%N); [left | vm_compute; reflexivity].
Defined.

End DateMore.

(** ** Image lists written to and read from an attribute *)

Section ImageListMore.

Import JS Birthday BirthdayView.

Lemma split_clean c s : count_char c s = 0%nat → split c s = [s].
Proof.
  induction s as [|a s IH]; [done|]. simpl.
  destruct (Ascii.eqb a c); [done|]. simpl. intros H. by rewrite IH.
Qed.

Lemma split_app c s t :
  count_char c s = 0%nat → split c (s +:+ String c t) = s :: split c t.
Proof.
  induction s as [|a s IH].
  - intros _. rewrite app_empty. simpl. by rewrite Ascii.eqb_refl.
  - rewrite app_cons. simpl. destruct (Ascii.eqb a c); [done|]. simpl.
    intros H. by rewrite IH.
Qed.

Lemma join_cons sep x y l : join sep (x :: y :: l) = x +:+ sep +:+ join sep (y :: l).
Proof. reflexivity. Qed.

Lemma split_join_clean l :
  l ≠ [] → Forall (λ s, count_char "," s = 0%nat) l → split "," (join "," l) = l.
Proof.
  induction l as [|x l IH]; [done|]. intros _ Hall.
  apply Forall_cons in Hall as [Hx Hl]. destruct l as [|y l].
  - by apply split_clean.
  - rewrite join_cons. change ("," +:+ join "," (y :: l)) with (String "," (join "," (y :: l))).
    rewrite split_app by done. by rewrite IH.
Qed.

Lemma split_items_clean c s : Forall (λ x, count_char c x = 0%nat) (split c s).
Proof.
  induction s as [|a s IH]; simpl; [by repeat constructor|].
  destruct (Ascii.eqb a c) eqn:E; [by constructor|].
  destruct (split c s) as [|x xs]; simpl.
  - constructor; [|done]. simpl. by rewrite E.
  - apply Forall_cons in IH as [Hx Hxs]. constructor; [|done].
    simpl. by rewrite E, Hx.
Qed.

Lemma unique_fold_facts {A} `{EqDecision A} (l seen : list A) :
  NoDup seen →
  NoDup (foldl (λ seen x, if decide (x ∈ seen) then seen else seen ++ [x]) seen l)
  ∧ ∀ x, x ∈ foldl (λ seen x, if decide (x ∈ seen) then seen else seen ++ [x]) seen l
         → x ∈ seen ∨ x ∈ l.
Proof.
  revert seen. induction l as [|y l IH]; intros seen Hnd; simpl.
  - split; [done|]. by left.
  - case_decide as Hy.
    + destruct (IH seen Hnd) as [Hn Hin]. split; [done|].
      intros x Hx. destruct (Hin x Hx); [by left | right; by right].
    + destruct (IH (seen ++ [y])) as [Hn Hin].
      { apply NoDup_app. split_and!; [done| |apply NoDup_singleton].
        intros x Hx Hx'. apply list_elem_of_singleton in Hx'. by subst. }
      split; [done|]. intros x Hx.
      destruct (Hin x Hx) as [Hs|Hl]; [|right; by right].
      apply elem_of_app in Hs as [?|Hs]; [by left|].
      apply list_elem_of_singleton in Hs. subst. right. left.
Qed.

(** X8: whatever the attribute holds, the images [setupImageCyclers]
    starts a cycling with are at least two, are distinct, are accepted as
    addresses, contain no comma, and are items of the attribute; so an
    entry one of whose addresses contains a comma is never cycled with
    its own list of images. *)
Theorem cycler_images_clean valid dataset_images l :
  cyclerImages valid dataset_images = Some l →
  (1 < length l)%nat
  ∧ NoDup l
  ∧ Forall (λ url, count_char "," url = 0%nat ∧ valid url = true) l
  ∧ (∃ attr, dataset_images = Some attr ∧ ∀ url, url ∈ l → url ∈ split "," attr)
  ∧ ∀ entry,
      Exists (λ url, count_char "," url ≠ 0%nat) (join_item <$> images entry) →
      l ≠ join_item <$> images entry.
Proof.
  unfold cyclerImages. destruct dataset_images as [attr|]; [|done].
  destruct (1 <? length (split "," attr))%nat; [|done].
  destruct (1 <? length _)%nat eqn:Hlen; [|done]. intros [= <-].
  destruct (unique_fold_facts (split "," attr) [] NoDup_nil_2) as [Hnd Hin].
  fold (unique (split "," attr)) in Hnd, Hin.
  assert (∀ url, url ∈ filter (λ url, valid url = true) (unique (split "," attr))
                 → url ∈ split "," attr ∧ valid url = true) as Hitems.
  { intros url [Hv Hu]%list_elem_of_filter. split; [|done].
    destruct (Hin url Hu) as [Hn|?]; [by apply elem_of_nil in Hn | done]. }
  assert (Forall (λ url, count_char "," url = 0%nat ∧ valid url = true)
            (filter (λ url, valid url = true) (unique (split "," attr)))) as Hclean.
  { apply Forall_forall. intros url Hurl. destruct (Hitems url Hurl) as [Hs Hv].
    split; [|done].
    pose proof (split_items_clean "," attr) as Hall.
    rewrite Forall_forall in Hall. by apply Hall. }
  split_and!.
  - by apply Nat.ltb_lt.
  - by apply NoDup_filter.
  - done.
  - exists attr. split; [done|]. intros url Hurl. by apply Hitems.
  - intros entry Hcomma E. rewrite E in Hclean.
    apply Exists_exists in Hcomma as (url & Hurl & Hc).
    rewrite Forall_forall in Hclean. by destruct (Hclean url Hurl).
Qed.

Lemma cycler_images_clean_witness :
  cyclerImages (λ _, true) (Some "a,b.webp,c.webp") = Some ["a"; "b.webp"; "c.webp"]
  ∧ ["a"; "b.webp"; "c.webp"]
    ≠ join_item <$> images {| name := "N"; images := [JStr "a,b.webp"; JStr "c.webp"] |}.
Proof.
  assert (cyclerImages (λ _, true) (Some "a,b.webp,c.webp")
          = Some ["a"; "b.webp"; "c.webp"]) as E by reflexivity.
  split; [exact E|].
  destruct (cycler_images_clean (λ _, true) (Some "a,b.webp,c.webp")
              ["a"; "b.webp"; "c.webp"] E) as (_ & _ & _ & _ & Hown).
  apply Hown. left. discriminate.
Defined.

Lemma unique_from {A} `{EqDecision A} (seen l : list A) :
  NoDup (seen ++ l) →
  foldl (λ seen x, if decide (x ∈ seen) then seen else seen ++ [x]) seen l
  = seen ++ l.
Proof.
  revert seen. induction l as [|x l IH]; intros seen Hnd; simpl.
  - by rewrite app_nil_r.
  - rewrite decide_False.
    + rewrite IH; rewrite <- app_assoc; done.
    + apply NoDup_app in Hnd as (_ & Hdis & _). intros Hin.
      apply (Hdis x Hin). left.
Qed.

Lemma unique_NoDup {A} `{EqDecision A} (l : list A) : NoDup l → unique l = l.
Proof. intros Hnd. unfold unique. by rewrite unique_from. Qed.

Lemma filter_all (valid : string → bool) l :
  Forall (λ url, valid url = true) l → filter (λ url, valid url = true) l = l.
Proof.
  induction 1 as [|x l Hx _ IH]; [done|].
  rewrite filter_cons, decide_True by done. by rewrite IH.
Qed.

(** X9: for an entry whose images, as written, are distinct, free of
    commas and accepted as addresses, and whose attribute is read back as
    written, the image cycling is started exactly when the entry has more
    than one image, and then with the entry's images in their order. *)
Theorem cycler_gets_entry_images valid entry :
  images entry ≠ [] →
  NoDup (join_item <$> images entry) →
  Forall (λ s, count_char "," s = 0%nat ∧ valid s = true) (join_item <$> images entry) →
  cyclerImages valid (Some (data_images entry))
  = if (1 <? length (images entry))%nat
    then Some (join_item <$> images entry) else None.
Proof.
  intros Hne Hnd Hall. unfold cyclerImages, data_images.
  rewrite split_join_clean.
  - rewrite unique_NoDup by done. rewrite filter_all.
    + rewrite length_fmap. by destruct (1 <? length (images entry))%nat.
    + eapply Forall_impl; [done|]. by intros s [_ ?].
  - by destruct (images entry).
  - eapply Forall_impl; [done|]. by intros s [? _].
Qed.

Lemma cycler_gets_entry_images_witness :
  cyclerImages (λ _, true)
    (Some (data_images {| name := "Alice Smith"; images := [JStr "img1"; JStr "img2"] |}))
  = Some ["img1"; "img2"].
Proof.
  apply (cycler_gets_entry_images (λ _, true)
           {| name := "Alice Smith"; images := [JStr "img1"; JStr "img2"] |}).
  - done.
  - simpl. apply NoDup_cons. split; [|apply NoDup_singleton].
    intros H. apply list_elem_of_singleton in H. discriminate H.
  - repeat constructor.
Defined.

End ImageListMore.

(** ** More on the cache *)

Section CacheMore.

Import Birthday CacheSpec Clock Samples.

Context {A : Type}.
Variable network : string → string → Z → fetched A * N.

Implicit Types (w : world A) (CACHE : cache_config).

(** X10: with the cache enabled, a call that succeeded leaves the
    returned data stored under its key, with the instant of the load
    that fetched them: the end of this call if it made a request, the
    instant found in the entry otherwise; every later call for the same
    address and options made while the age of that entry is below the
    time to live returns the same data and makes no request, whatever
    the network would answer then. *)
Theorem cache_serves_until_expiry CACHE url options w d w1 :
  ENABLED CACHE = true →
  cachedFetch network CACHE url options w = (Ok d, w1) →
  ∃ stored,
    dataCache w1 !! (url +:+ options) = Some {| timestamp := stored; data := d |}
    ∧ ((w1 = w ∧ (clock w - stored < DURATION CACHE)%Z)
       ∨ (stored = clock w1 ∧ requests w1 = requests w ++ [(url, options)]))
    ∧ ∀ elapsed,
        (clock w1 + elapsed - stored < DURATION CACHE)%Z →
        cachedFetch network CACHE url options (later elapsed w1)
        = (Ok d, later elapsed w1).
Proof.
  intros Hen Hcall.
  assert (∃ stored,
            dataCache w1 !! (url +:+ options)
            = Some {| timestamp := stored; data := d |}
            ∧ ((w1 = w ∧ (clock w - stored < DURATION CACHE)%Z)
               ∨ (stored = clock w1
                  ∧ requests w1 = requests w ++ [(url, options)])))
    as (stored & Hentry & Hhow).
  { revert Hcall. unfold cachedFetch. rewrite Hen. simpl.
    destruct (network url options (clock w)) as [res latency] eqn:Hnet.
    destruct (dataCache w !! (url +:+ options)) as [e|] eqn:He.
    - destruct (Z.ltb_spec (clock w - timestamp e) (DURATION CACHE)) as [Hage|Hage].
      + intros [= <- <-]. exists (timestamp e). split; [by destruct e|].
        by left.
      + rewrite (fetchAndStore_result network _ _ _ _ res latency) by done.
        destruct (load_result res); [|done]. intros [= <- <-]. simpl.
        eexists. split; [apply lookup_insert_eq|]. by right.
    - rewrite (fetchAndStore_result network _ _ _ _ res latency) by done.
      destruct (load_result res); [|done]. intros [= <- <-]. simpl.
      eexists. split; [apply lookup_insert_eq|]. by right. }
  exists stored. split; [done|]. split; [done|].
  intros elapsed Hel. unfold cachedFetch. rewrite Hen. simpl.
  rewrite Hentry. simpl. apply Z.ltb_lt in Hel. by rewrite Hel.
Qed.

(** X11: a call for one key leaves the entries of all other keys as they
    were, whether the cache is enabled or not and whatever the outcome. *)
Theorem cache_other_keys_untouched CACHE url options w key :
  key ≠ url +:+ options →
  dataCache (cachedFetch network CACHE url options w).2 !! key
  = dataCache w !! key.
Proof.
  intros Hkey. unfold cachedFetch. destruct (ENABLED CACHE); simpl.
  - destruct (network url options (clock w)) as [res latency] eqn:Hnet.
    destruct (dataCache w !! (url +:+ options)) as [e|] eqn:He.
    + destruct (_ <? _)%Z; [done|].
      rewrite (fetchAndStore_result network _ _ _ _ res latency) by done.
      simpl. destruct (load_result res); simpl.
      * rewrite lookup_insert_ne by done. by apply lookup_delete_ne.
      * by apply lookup_delete_ne.
    + rewrite (fetchAndStore_result network _ _ _ _ res latency) by done.
      simpl. destruct (load_result res); simpl; [|done].
      by rewrite lookup_insert_ne.
  - unfold fetch. by destruct (network url options (clock w)) as [[|r] latency].
Qed.

End CacheMore.

Section CacheMoreExamples.

Import Birthday CacheSpec Clock Samples.

(** A call served from the cache at age 3599999, and the call made 1 ms
    after it, which makes a request: the age of the entry decides, not
    the time since the last call that succeeded. *)
Example served_call_does_not_renew :
  (cachedFetch (answers 200 (Some 8%nat)) CONFIG_CACHE "u" "{}"
     (cached_world 3600999)).1 = Ok 7%nat
  ∧ (cachedFetch (answers 200 (Some 8%nat)) CONFIG_CACHE "u" "{}"
       (later 1 (cachedFetch (answers 200 (Some 8%nat)) CONFIG_CACHE "u" "{}"
                   (cached_world 3600999)).2)).1 = Ok 8%nat.
Proof. split; reflexivity. Qed.

Lemma cache_serves_until_expiry_witness :
  ∃ stored,
    dataCache
      (cachedFetch (answers 200 (Some 8%nat)) CONFIG_CACHE "u" "{}"
         (cached_world 3601000)).2 !! "u{}"
    = Some {| timestamp := stored; data := 8%nat |}
    ∧ cachedFetch (answers 200 (Some 8%nat)) CONFIG_CACHE "u" "{}"
        (later 3599999
           (cachedFetch (answers 200 (Some 8%nat)) CONFIG_CACHE "u" "{}"
              (cached_world 3601000)).2)
      = (Ok 8%nat,
         later 3599999
           (cachedFetch (answers 200 (Some 8%nat)) CONFIG_CACHE "u" "{}"
              (cached_world 3601000)).2).
Proof.
  destruct (cache_serves_until_expiry (answers 200 (Some 8%nat)) CONFIG_CACHE
              "u" "{}" (cached_world 3601000) 8%nat
              (cachedFetch (answers 200 (Some 8%nat)) CONFIG_CACHE "u" "{}"
                 (cached_world 3601000)).2 eq_refl eq_refl)
    as (stored & Hentry & [[Hsame _]|[Hstored _]] & Hserved).
  - discriminate Hsame.
  - exists stored. split; [exact Hentry|].
    apply Hserved. rewrite Hstored. simpl. lia.
Defined.

Lemma cache_other_keys_untouched_witness :
  dataCache (cachedFetch (answers 200 (Some 8%nat)) CONFIG_CACHE "v" "{}"
               (cached_world 5000)).2 !! "u{}"
  = dataCache (cached_world 5000) !! "u{}".
Proof.
  apply (cache_other_keys_untouched (answers 200 (Some 8%nat)) CONFIG_CACHE
           "v" "{}" (cached_world 5000) "u{}").
  discriminate.
Defined.

End CacheMoreExamples.

(** ** More on durations and labels *)

Section LabelMore.

Import JS Utils CountdownSpec UtilsDates.

Local Open Scope Z_scope.

Variable Date_parse : string → option Z.

(** On instants that are numbers within range, the label is the one
    computed from the instants. *)
Lemma calculateTimeLeft_numbers now s e :
  Z.abs s ≤ 8640000000000000 → Z.abs e ≤ 8640000000000000 →
  UtilsDates.calculateTimeLeft Date_parse now (TimeNumber s) (TimeNumber e)
  = Utils.calculateTimeLeft now s e.
Proof.
  intros Hs He. unfold UtilsDates.calculateTimeLeft, Utils.calculateTimeLeft, getTime.
  apply Z.leb_le in Hs. apply Z.leb_le in He. by rewrite Hs, He.
Qed.

(** X12: [calculateTimeLeft] reads a number as milliseconds, [hasExpired]
    reads a number below 10^12 as seconds: for a window given in Unix
    seconds and any present instant from 10^12 ms on, the label is "Event
    Ended", also when [hasExpired] finds that the end has not come. *)
Theorem seconds_read_as_milliseconds now s e :
  0 ≤ s < 10 ^ 12 → 0 ≤ e < 10 ^ 12 → 10 ^ 12 ≤ now →
  UtilsDates.calculateTimeLeft Date_parse now (TimeNumber s) (TimeNumber e)
  = "Event Ended"
  ∧ (now < e * 1000 → hasExpired Date_parse now (TimeNumber e) = false).
Proof.
  intros Hs He Hnow. split.
  - rewrite calculateTimeLeft_numbers by lia. unfold Utils.calculateTimeLeft.
    assert ((now <? s) = false) as -> by (apply Z.ltb_ge; lia).
    assert ((now <? e) = false) as -> by (apply Z.ltb_ge; lia). done.
  - intros Hfuture. unfold hasExpired. simpl.
    assert ((e <? 10 ^ 12) = true) as -> by (apply Z.ltb_lt; lia).
    apply Z.leb_gt. lia.
Qed.

(** X13: an end date that cannot be parsed never counts as expired, yet
    its label is "Event Ended" as soon as the start is past or cannot be
    parsed either. *)
Theorem unparsable_end now startTime s :
  Date_parse s = None →
  before now (getTime Date_parse startTime) = false →
  hasExpired Date_parse now (TimeString s) = false
  ∧ UtilsDates.calculateTimeLeft Date_parse now startTime (TimeString s)
    = "Event Ended".
Proof.
  intros Hs Hstart. split.
  - unfold hasExpired. simpl. by rewrite Hs.
  - unfold UtilsDates.calculateTimeLeft. rewrite Hstart. simpl. by rewrite Hs.
Qed.

(** X14: the duration text of two non-negative durations within the same
    minute is the same: the label only changes from one minute to the
    next. *)
Theorem duration_text_per_minute a b :
  0 ≤ a → 0 ≤ b → a / 60000 = b / 60000 →
  formatDuration a = formatDuration b
  ∧ Events.formatTimeRemaining a = Events.formatTimeRemaining b.
Proof.
  intros Ha Hb Hmin.
  assert (duration_text a = duration_text b) as E.
  { unfold duration_text.
    assert (∀ x, 0 ≤ x → x / 3600000 = x / 60000 / 60) as Hh
      by (intros; rewrite Z.div_div by lia; done).
    assert (∀ x, 0 ≤ x → x / 86400000 = x / 60000 / 1440) as Hd
      by (intros; rewrite Z.div_div by lia; done).
    by rewrite (Hh a), (Hh b), (Hd a), (Hd b), Hmin by done. }
  split.
  - by rewrite !formatDuration_spec by done.
  - by rewrite !formatTimeRemaining_spec by done.
Qed.

(** X15: for a non-negative duration the text shows days, hours below 24
    and minutes below 60 that add up to the duration less a remainder
    under one minute; the days are left out exactly when there are
    none. *)
Theorem duration_text_parts ms :
  0 ≤ ms →
  ∃ days hours minutes,
    formatDuration ms
    = (if days =? 0 then "" else string_of_Z days +:+ "d ")
        +:+ string_of_Z hours +:+ "h " +:+ string_of_Z minutes +:+ "m"
    ∧ 0 ≤ days ∧ 0 ≤ hours < 24 ∧ 0 ≤ minutes < 60
    ∧ ms - 60000 < days * 86400000 + hours * 3600000 + minutes * 60000 ≤ ms.
Proof.
  intros Hms. exists (ms / 86400000), ((ms / 3600000) mod 24), ((ms / 60000) mod 60).
  split; [by apply formatDuration_spec|].
  pose proof (duration_parts ms Hms) as H. simpl in H. lia.
Qed.

End LabelMore.

Section LabelMoreExamples.

Import JS Utils CountdownSpec UtilsDates Samples.

Local Open Scope Z_scope.

(** An event ending at 2000000000 s, seen at 1700000000000 ms *)
Lemma seconds_read_as_milliseconds_witness :
  UtilsDates.calculateTimeLeft no_dates 1700000000000
    (TimeNumber 1600000000) (TimeNumber 2000000000) = "Event Ended"
  ∧ hasExpired no_dates 1700000000000 (TimeNumber 2000000000) = false.
Proof.
  destruct (seconds_read_as_milliseconds no_dates 1700000000000 1600000000 2000000000)
    as [Hlabel Hexp]; [lia..|].
  split; [exact Hlabel | apply Hexp; lia].
Defined.

Lemma unparsable_end_witness :
  hasExpired no_dates 5 (TimeString "soon") = false
  ∧ UtilsDates.calculateTimeLeft no_dates 5 (TimeNumber 1) (TimeString "soon")
    = "Event Ended".
Proof.
  apply (unparsable_end no_dates 5 (TimeNumber 1) "soon"); reflexivity.
Defined.

Lemma duration_text_per_minute_witness :
  formatDuration 60000 = formatDuration 119999
  ∧ Events.formatTimeRemaining 60000 = Events.formatTimeRemaining 119999.
Proof.
  apply (duration_text_per_minute 60000 119999); [lia | lia | reflexivity].
Defined.

Lemma duration_text_parts_witness :
  ∃ days hours minutes,
    formatDuration 90000000
    = (if days =? 0 then "" else string_of_Z days +:+ "d ")
        +:+ string_of_Z hours +:+ "h " +:+ string_of_Z minutes +:+ "m"
    ∧ 0 ≤ days ∧ 0 ≤ hours < 24 ∧ 0 ≤ minutes < 60
    ∧ 90000000 - 60000 < days * 86400000 + hours * 3600000 + minutes * 60000
      ≤ 90000000.
Proof.
  apply (duration_text_parts 90000000). lia.
Defined.

End LabelMoreExamples.

(** ** More on timers *)

Section TimerMore.

Import JS Browser Runs Samples.

Local Open Scope Z_scope.

Lemma remove_first_absent h l : h ∉ l → remove_first h l = l.
Proof.
  induction l as [|x l IH]; [done|]. intros Hn. simpl.
  apply not_elem_of_cons in Hn as [Hx Hl].
  rewrite decide_False by done. by rewrite IH.
Qed.

Lemma remove_first_other h h' l : h' ≠ h → h' ∈ remove_first h l ↔ h' ∈ l.
Proof.
  intros Hne. induction l as [|x l IH]; [done|]. simpl. case_decide as Hx.
  - subst x. rewrite elem_of_cons. split; [by right | by intros [?|?]].
  - rewrite !elem_of_cons, IH. done.
Qed.

Lemma remove_first_NoDup h l : NoDup l → h ∉ remove_first h l.
Proof.
  induction 1 as [|x l Hx Hnd IH]; simpl; [apply not_elem_of_nil|].
  case_decide as E; [by subst x|].
  apply not_elem_of_cons. split; [done | apply IH].
Qed.

(** X16: [cleanupTimer] cancels the interval and takes one occurrence of
    its handle, the first, out of the array; other intervals and other
    handles stay; when the array lists no handle twice the handle is gone
    from it and a second call changes nothing. *)
Theorem cleanupTimer_removes h arr st :
  intervals (Events.cleanupTimer h arr st) !! h = None
  ∧ (∀ h', h' ≠ h →
       intervals (Events.cleanupTimer h arr st) !! h' = intervals st !! h'
       ∧ (h' ∈ tracked arr (Events.cleanupTimer h arr st) ↔ h' ∈ tracked arr st))
  ∧ tracked arr (Events.cleanupTimer h arr st) = remove_first h (tracked arr st)
  ∧ (NoDup (tracked arr st) →
       (h ∉ tracked arr (Events.cleanupTimer h arr st))
       ∧ Events.cleanupTimer h arr (Events.cleanupTimer h arr st)
         = Events.cleanupTimer h arr st).
Proof.
  assert (tracked arr (Events.cleanupTimer h arr st) = remove_first h (tracked arr st))
    as Htr by (unfold tracked; simpl; by rewrite lookup_insert_eq).
  split_and!.
  - simpl. apply lookup_delete_eq.
  - intros h' Hne. split.
    + simpl. by apply lookup_delete_ne.
    + rewrite Htr. by apply remove_first_other.
  - done.
  - intros Hnd. split; [rewrite Htr; by apply remove_first_NoDup|].
    unfold Events.cleanupTimer, clearInterval, with_arrays, with_intervals. simpl.
    f_equal.
    + by rewrite delete_delete_eq.
    + rewrite lookup_insert_eq. simpl. rewrite insert_insert_eq.
      rewrite (remove_first_absent h (remove_first _ _)); [done|].
      by apply remove_first_NoDup.
Qed.

Lemma cleanupTimer_removes_witness :
  tracked 0 (Events.cleanupTimer 2 0 events_started) = []
  ∧ Events.cleanupTimer 2 0 (Events.cleanupTimer 2 0 events_started)
    = Events.cleanupTimer 2 0 events_started.
Proof.
  destruct (cleanupTimer_removes 2 0 events_started) as (_ & _ & Htr & Hnd).
  split; [rewrite Htr; reflexivity|].
  apply Hnd. vm_compute. apply NoDup_singleton.
Defined.

(** The label of a window that has not ended *)
Lemma label_not_ended now start endTime :
  now < start ∨ now < endTime →
  Utils.calculateTimeLeft now start endTime ≠ "Event Ended".
Proof.
  intros H. unfold Utils.calculateTimeLeft.
  destruct (now <? start) eqn:E1; [discriminate|].
  destruct (now <? endTime) eqn:E2; [discriminate|].
  apply Z.ltb_ge in E1. apply Z.ltb_ge in E2. lia.
Qed.

End TimerMore.

(** ** The countdown of Utils.js over time *)

Section CountdownRuns.

Import JS Browser Runs Samples.

Local Open Scope Z_scope.

Lemma created_facts startTime endTime elementId arr now st txt :
  document st !! elementId = Some txt →
  now < startTime ∨ now < endTime →
  let h0 := next_handle st in
  let st' := Utils.createCountdownTimer startTime endTime elementId arr now st in
  intervals st' !! h0 = Some NotAFunction
  ∧ intervals st' !! S h0 = Some (UpdateTimer h0)
  ∧ closures st' !! h0
    = Some {| c_startTime := startTime; c_endTime := endTime;
              c_elementId := elementId; c_timerId := S h0 |}
  ∧ tracked arr st' = tracked arr st ++ [S h0].
Proof.
  intros Hel Hlabel h0 st'. subst st' h0.
  apply label_not_ended in Hlabel.
  unfold Utils.createCountdownTimer. simpl.
  unfold Utils.updateTimer. simpl. rewrite lookup_insert_eq. simpl.
  unfold getElementById. simpl. rewrite Hel.
  rewrite decide_False by done. simpl.
  split_and!.
  - rewrite lookup_insert_ne by lia. apply lookup_insert_eq.
  - apply lookup_insert_eq.
  - apply lookup_insert_eq.
  - unfold tracked. simpl. by rewrite lookup_insert_eq.
Qed.

(** What a tick of the update interval keeps *)
Lemma tick_keeps h0 h1 c arr now st :
  h1 ≠ h0 →
  closures st !! h0 = Some c → c_timerId c = h1 →
  intervals st !! h0 = Some NotAFunction →
  (intervals st !! h1 = Some (UpdateTimer h0) ∨ intervals st !! h1 = None) →
  let st' := EventLoop.tick h1 now st in
  closures st' !! h0 = Some c
  ∧ intervals st' !! h0 = Some NotAFunction
  ∧ (intervals st' !! h1 = Some (UpdateTimer h0) ∨ intervals st' !! h1 = None)
  ∧ tracked arr st' = tracked arr st.
Proof.
  intros Hne Hc Hid H0 [H1|H1] st'; subst st'; unfold EventLoop.tick; rewrite H1;
    [|by auto].
  unfold Utils.updateTimer. simpl. rewrite Hc. rewrite Hid.
  destruct (getElementById (c_elementId c) _); case_decide; simpl;
    rewrite ?lookup_delete_ne by done; rewrite ?lookup_delete_eq; auto.
Qed.

Lemma ticks_keep h0 h1 c arr instants st :
  h1 ≠ h0 →
  closures st !! h0 = Some c → c_timerId c = h1 →
  intervals st !! h0 = Some NotAFunction →
  (intervals st !! h1 = Some (UpdateTimer h0) ∨ intervals st !! h1 = None) →
  intervals (ticks h1 instants st) !! h0 = Some NotAFunction
  ∧ tracked arr (ticks h1 instants st) = tracked arr st.
Proof.
  intros Hne. unfold ticks. revert st.
  induction instants as [|t instants IH]; intros st Hc Hid H0 H1; [done|].
  destruct (tick_keeps h0 h1 c arr t st Hne Hc Hid H0 H1) as (Hc' & H0' & H1' & Htr').
  destruct (IH _ Hc' Hid H0' H1') as [Hi Htr]. simpl. split; [done|].
  by rewrite Htr.
Qed.

(** X17: a countdown created on an element that exists, for a window
    that has not ended, leaves the interval of its first [setInterval]
    call active for ever: no tick of its update interval cancels it, and
    none takes the timer's handle out of the array of timer ids. *)
Theorem first_interval_never_cleared startTime endTime elementId arr now st txt instants :
  document st !! elementId = Some txt →
  now < startTime ∨ now < endTime →
  let created := Utils.createCountdownTimer startTime endTime elementId arr now st in
  let final := ticks (S (next_handle st)) instants created in
  intervals final !! next_handle st = Some NotAFunction
  ∧ tracked arr final = tracked arr st ++ [S (next_handle st)].
Proof.
  intros Hel Hlabel created final.
  destruct (created_facts startTime endTime elementId arr now st txt Hel Hlabel)
    as (H0 & H1 & Hc & Htr).
  fold created in H0, H1, Hc, Htr. subst final. rewrite <- Htr.
  eapply (ticks_keep (next_handle st) (S (next_handle st)));
    [lia | exact Hc | done | done | by left].
Qed.

Lemma first_interval_never_cleared_witness :
  intervals (ticks 2 [500; 1500; 2500] utils_created) !! 1%nat = Some NotAFunction
  ∧ tracked 0 (ticks 2 [500; 1500; 2500] utils_created) = [2%nat].
Proof.
  apply (first_interval_never_cleared 1000 2000 "t1" 0%nat 0 (page_with "t1") ""
           [500; 1500; 2500]).
  - reflexivity.
  - left. lia.
Defined.

(** X18: at an instant that is neither before the start nor before the
    end of the window, a tick of the update interval writes "Event Ended"
    to the element if it is there and cancels the interval, and every
    later tick leaves the page as it is. *)
Theorem ended_tick_cancels h env c now later st :
  intervals st !! h = Some (UpdateTimer env) →
  closures st !! env = Some c →
  c_timerId c = h →
  c_startTime c ≤ now → c_endTime c ≤ now →
  let st' := EventLoop.tick h now st in
  intervals st' !! h = None
  ∧ (is_Some (document st !! c_elementId c) →
     document st' !! c_elementId c = Some "Event Ended")
  ∧ EventLoop.tick h later st' = st'.
Proof.
  intros Hh Hc Hid Hs He st'.
  assert (intervals st' !! h = None) as Hgone.
  { subst st'. unfold EventLoop.tick. rewrite Hh.
    unfold Utils.updateTimer, Utils.calculateTimeLeft. simpl. rewrite Hc.
    apply Z.ltb_ge in Hs. apply Z.ltb_ge in He. rewrite Hs, He, Hid.
    rewrite decide_True by done.
    destruct (getElementById _ _); simpl; apply lookup_delete_eq. }
  split_and!; [done| |].
  - intros [txt Htxt]. subst st'. unfold EventLoop.tick. rewrite Hh.
    unfold Utils.updateTimer, Utils.calculateTimeLeft. simpl. rewrite Hc.
    apply Z.ltb_ge in Hs. apply Z.ltb_ge in He. rewrite Hs, He.
    rewrite decide_True by done. unfold getElementById. simpl. rewrite Htxt.
    simpl. apply lookup_insert_eq.
  - unfold EventLoop.tick at 1. by rewrite Hgone.
Qed.

Lemma ended_tick_cancels_witness :
  intervals (EventLoop.tick 2 2500 utils_created) !! 2%nat = None
  ∧ document (EventLoop.tick 2 2500 utils_created) !! "t1" = Some "Event Ended"
  ∧ EventLoop.tick 2 3500 (EventLoop.tick 2 2500 utils_created)
    = EventLoop.tick 2 2500 utils_created.
Proof.
  destruct (ended_tick_cancels 2 1
              {| c_startTime := 1000; c_endTime := 2000;
                 c_elementId := "t1"; c_timerId := 2 |}
              2500 3500 utils_created) as (Hgone & Htext & Hidle);
    [reflexivity | reflexivity | reflexivity | simpl; lia | simpl; lia |].
  split; [exact Hgone|]. split; [|exact Hidle].
  apply Htext. vm_compute. eauto.
Defined.

Lemma numeral_not_label n eventNum :
  string_of_nat n ≠ "event-timer-" +:+ eventNum.
Proof.
  unfold string_of_nat. destruct (Nat.to_uint n); discriminate.
Qed.

(** X19: a tick of a timer of Events2.js writes to no element but the
    one named by the decimal numeral of the interval handle: the display
    elements "event-timer-<eventNum>" are never written by the timers. *)
Theorem event_timer_never_writes_label h startTime endTime timerId now st :
  intervals st !! h = Some (UpdateEventTimer startTime endTime timerId) →
  (∀ id, id ≠ string_of_nat timerId →
         document (EventLoop.tick h now st) !! id = document st !! id)
  ∧ ∀ eventNum,
      document (EventLoop.tick h now st) !! ("event-timer-" +:+ eventNum)
      = document st !! ("event-timer-" +:+ eventNum).
Proof.
  intros Hh.
  assert (∀ id, id ≠ string_of_nat timerId →
                document (EventLoop.tick h now st) !! id = document st !! id) as Hother.
  { intros id Hid. unfold EventLoop.tick. rewrite Hh.
    unfold Events.updateEventTimer, Events.cleanup_from_updateEventTimer. simpl.
    destruct (getElementById _ _); simpl.
    - case_decide; simpl.
      + destruct (global_timerIds st); simpl; by rewrite lookup_insert_ne.
      + by rewrite lookup_insert_ne.
    - by destruct (global_timerIds st). }
  split; [done|]. intros eventNum. apply Hother.
  intros E. by apply (numeral_not_label timerId eventNum).
Qed.

Lemma event_timer_never_writes_label_witness :
  document (EventLoop.tick 2 2500 events_started) !! "event-timer-1"
  = document events_started !! "event-timer-1".
Proof.
  apply (event_timer_never_writes_label 2 1000 2000 2 2500 events_started).
  reflexivity.
Defined.

End CountdownRuns.

(** ** Case conversion and style names *)

Section TextMore.

Import UtilsDates EventsView BirthdayView.

Lemma upper_char_idem c : upper_char (upper_char c) = upper_char c.
Proof. by destruct c as [[] [] [] [] [] [] [] []]. Qed.

Lemma lower_char_idem c : lower_char (lower_char c) = lower_char c.
Proof. by destruct c as [[] [] [] [] [] [] [] []]. Qed.

Lemma lower_upper_char c : lower_char (upper_char c) = lower_char c.
Proof. by destruct c as [[] [] [] [] [] [] [] []]. Qed.

Lemma upper_char_not_lower c : is_lower (upper_char c) = false.
Proof. by destruct c as [[] [] [] [] [] [] [] []]. Qed.

Lemma upper_lower_char c : is_upper c = true → upper_char (lower_char c) = c.
Proof. by destruct c as [[] [] [] [] [] [] [] []]. Qed.

Lemma lower_char_fixed c : is_upper c = false → lower_char c = c.
Proof. unfold lower_char. by intros ->. Qed.

Lemma toLowerCase_idem s : toLowerCase (toLowerCase s) = toLowerCase s.
Proof. induction s as [|c s IH]; [done|]. simpl. by rewrite lower_char_idem, IH. Qed.

Lemma toLowerCase_length s : String.length (toLowerCase s) = String.length s.
Proof. induction s as [|c s IH]; [done|]. simpl. by rewrite IH. Qed.

Lemma capitalize_cons c r :
  capitalizeFirstLetter (String c r) = String (upper_char c) (toLowerCase r).
Proof. reflexivity. Qed.

(** X20: on a string of ASCII characters [capitalizeFirstLetter] keeps
    the length and changes nothing but the case of letters; the result
    does not begin with a small letter and has no capital letter after
    its first character; capitalising twice is capitalising once. *)
Theorem capitalize_shape s :
  is_ascii s = true →
  String.length (capitalizeFirstLetter s) = String.length s
  ∧ toLowerCase (capitalizeFirstLetter s) = toLowerCase s
  ∧ capitalizeFirstLetter (capitalizeFirstLetter s) = capitalizeFirstLetter s
  ∧ ∀ c r, capitalizeFirstLetter s = String c r →
           is_lower c = false ∧ toLowerCase r = r.
Proof.
  intros _. destruct s as [|c r]; [by split_and!|].
  rewrite !capitalize_cons. split_and!.
  - simpl. by rewrite toLowerCase_length.
  - simpl. by rewrite lower_upper_char, toLowerCase_idem.
  - by rewrite upper_char_idem, toLowerCase_idem.
  - intros c' r' [= <- <-]. split.
    + apply upper_char_not_lower.
    + apply toLowerCase_idem.
Qed.

Lemma capitalize_shape_witness :
  is_ascii "hELLO wORLD" = true
  ∧ capitalizeFirstLetter (capitalizeFirstLetter "hELLO wORLD")
    = capitalizeFirstLetter "hELLO wORLD".
Proof.
  split; [reflexivity|].
  by apply (capitalize_shape "hELLO wORLD").
Defined.

Lemma cssKey_cons_upper c r :
  is_upper c = true →
  cssKey (String c r) = String "-" (String (lower_char c) (cssKey r)).
Proof. unfold cssKey. simpl. by intros ->. Qed.

Lemma cssKey_cons_other c r :
  is_upper c = false → cssKey (String c r) = String c (cssKey r).
Proof.
  intros H. unfold cssKey. simpl. rewrite H. simpl. by rewrite lower_char_fixed.
Qed.

Lemma no_dash_cons c r :
  count_char "-" (String c r) = 0%nat → c ≠ "-"%char ∧ count_char "-" r = 0%nat.
Proof.
  simpl. destruct (Ascii.eqb c "-") eqn:E; [done|].
  intros H. split; [|done]. by apply Ascii.eqb_neq.
Qed.

(** The names [getStyleString] writes coincide for [aB] and [a-b]. *)
Lemma cssKey_dash_clash : cssKey "aB" = cssKey "a-b".
Proof. reflexivity. Qed.

(** X21: the property name written by [getStyleString] has no capital
    letter, and two ASCII keys without a hyphen that are written as the
    same name are the same key. *)
Theorem css_key_injective k1 k2 :
  is_ascii k1 = true → is_ascii k2 = true →
  count_char "-" k1 = 0%nat → count_char "-" k2 = 0%nat →
  toLowerCase (cssKey k1) = cssKey k1
  ∧ (cssKey k1 = cssKey k2 → k1 = k2).
Proof.
  intros _ _ H1 H2. split; [apply toLowerCase_idem|].
  revert k2 H1 H2. induction k1 as [|c1 r1 IH]; intros [|c2 r2] H1 H2.
  - done.
  - destruct (is_upper c2) eqn:U2;
      [rewrite cssKey_cons_upper | rewrite cssKey_cons_other]; done.
  - destruct (is_upper c1) eqn:U1;
      [rewrite cssKey_cons_upper | rewrite cssKey_cons_other]; done.
  - apply no_dash_cons in H1 as [D1 H1]. apply no_dash_cons in H2 as [D2 H2].
    destruct (is_upper c1) eqn:U1, (is_upper c2) eqn:U2.
    + rewrite !cssKey_cons_upper by done. intros [= Ec Er].
      f_equal; [|by apply IH].
      by rewrite <- (upper_lower_char c1), <- (upper_lower_char c2), Ec.
    + rewrite (cssKey_cons_upper c1), (cssKey_cons_other c2) by done.
      by intros [= <- _].
    + rewrite (cssKey_cons_other c1), (cssKey_cons_upper c2) by done.
      by intros [= -> _].
    + rewrite !cssKey_cons_other by done. intros [= -> Er].
      f_equal. by apply IH.
Qed.

Lemma css_key_injective_witness :
  cssKey "backgroundColor" = "background-color"
  ∧ cssKey "borderRadius" = "border-radius"
  ∧ toLowerCase (cssKey "backgroundColor") = cssKey "backgroundColor".
Proof.
  split_and!; [reflexivity | reflexivity |].
  by apply (css_key_injective "backgroundColor" "borderRadius").
Defined.

End TextMore.

(** ** Event details and the events section *)

Section EventsMore.

Import JS Utils Events EventsView Samples.

(** X22: an event whose number is that of another event behind the
    digits 10 is shown under the other event's identifier and name, the
    name followed by the rerun mark, provided the other event's number
    does not itself begin with 10. *)
Theorem rerun_named_after_original formatDate loc original rerun :
  String.prefix "10" (string_of_Z (event original)) = false →
  string_of_Z (event rerun) = "10" +:+ string_of_Z (event original) →
  eventId (processEventDetails formatDate rerun loc)
  = eventId (processEventDetails formatDate original loc)
  ∧ eventName (processEventDetails formatDate rerun loc)
    = eventName (processEventDetails formatDate original loc) +:+ " (Rerun)".
Proof.
  intros Hplain Hrerun. unfold processEventDetails. simpl.
  rewrite Hplain, Hrerun.
  change ("10" +:+ string_of_Z (event original))
    with (String "1" (String "0" (string_of_Z (event original)))).
  assert (String.prefix "10" (String "1" (String "0" (string_of_Z (event original)))) = true)
    as ->.
  { simpl. by destruct (string_of_Z (event original)). }
  done.
Qed.

Lemma rerun_named_after_original_witness :
  string_of_Z 10801 = "10" +:+ string_of_Z 801
  ∧ eventName
      (processEventDetails (λ _, "")
         {| event := 10801; start := TimeNumber 0; end_ := TimeNumber 0 |}
         {| EventName := Some {[ "801" := "Summer" ]} |})
    = eventName
        (processEventDetails (λ _, "")
           {| event := 801; start := TimeNumber 0; end_ := TimeNumber 0 |}
           {| EventName := Some {[ "801" := "Summer" ]} |}) +:+ " (Rerun)".
Proof.
  split; [reflexivity|].
  apply (rerun_named_after_original (λ _, "")
           {| EventName := Some {[ "801" := "Summer" ]} |}
           {| event := 801; start := TimeNumber 0; end_ := TimeNumber 0 |}
           {| event := 10801; start := TimeNumber 0; end_ := TimeNumber 0 |});
    reflexivity.
Defined.

Lemma append_empty s t : s +:+ t = "" ↔ s = "" ∧ t = "".
Proof.
  split; [|by intros [-> ->]].
  destruct s; [|discriminate]. rewrite app_empty. by intros ->.
Qed.

Lemma concat_pairs {A} (l : list A) : concat (pairs l) = l.
Proof.
  enough (concat (pairs l) = l ∧ ∀ a, concat (pairs (a :: l)) = a :: l) as [? _]
    by done.
  induction l as [|b l [IH1 IH2]]; [done|].
  split; [apply IH2|]. intros a. simpl. by rewrite IH1.
Qed.

Section Rendering.

Variable Date_parse : string → option Z.
Variable eventCard : string → eventData → string.
Variable displayedInstant : time_value → Z.
Variable row : string → string.
Variable cell : string → string.

Lemma pair_empty timerIds now entries p :
  (∀ eventNum ev, eventCard eventNum ev ≠ "") →
  innerEventsCell
    (foldl (processEvent Date_parse eventCard displayedInstant timerIds now) p entries)
  = ""
  ↔ innerEventsCell p = "" ∧ Forall (λ entry, hasExpired Date_parse now (end_ entry.2) = true) entries.
Proof.
  intros Hcard. revert p.
  induction entries as [|[eventNum ev] entries IH]; intros p.
  { simpl. split; [by intros ->|by intros [-> _]]. }
  cbn [foldl]. rewrite IH, Forall_cons. unfold processEvent.
  destruct (hasExpired Date_parse now (end_ ev)) eqn:E; simpl; rewrite ?E.
  - split; [by intros [? ?] | by intros [? [_ ?]]].
  - rewrite append_empty. split.
    + intros [[_ Hc] _]. by destruct (Hcard eventNum ev).
    + by intros [_ [? _]].
Qed.

Lemma rows_empty timerIds now chunks r :
  (∀ eventNum ev, eventCard eventNum ev ≠ "") →
  (∀ s, row s ≠ "") →
  eventsCell
    (foldl (processRow Date_parse eventCard displayedInstant row timerIds now) r chunks)
  = ""
  ↔ eventsCell r = "" ∧ Forall (Forall (λ entry, hasExpired Date_parse now (end_ entry.2) = true)) chunks.
Proof.
  intros Hcard Hrow. revert r.
  induction chunks as [|chunk chunks IH]; intros r.
  { simpl. split; [by intros ->|by intros [-> _]]. }
  cbn [foldl]. rewrite IH, Forall_cons. unfold processRow at 1. simpl.
  pose proof (pair_empty timerIds now chunk
                {| innerEventsCell := ""; console_log := []; page := after r |} Hcard)
    as Hpair.
  fold (processEventPair Date_parse eventCard displayedInstant chunk timerIds now (after r))
    in Hpair.
  destruct (String.eqb_spec
              (innerEventsCell
                 (processEventPair Date_parse eventCard displayedInstant
                    chunk timerIds now (after r))) "") as [E|E].
  - apply Hpair in E as [_ E]. split; [by intros [? ?] | by intros [? [_ ?]]].
  - rewrite append_empty. split.
    + intros [[_ Hr] _]. by destruct (Hrow _ Hr).
    + intros [_ [Hc _]]. destruct E. apply Hpair. by split.
Qed.

Lemma rows_expired timerIds now chunks r :
  Forall (Forall (λ entry, hasExpired Date_parse now (end_ entry.2) = true)) chunks →
  after (foldl (processRow Date_parse eventCard displayedInstant row timerIds now) r chunks)
  = after r.
Proof.
  revert r. induction chunks as [|chunk chunks IH]; intros r Hall; [done|].
  apply Forall_cons in Hall as [Hc Hall]. cbn [foldl]. rewrite IH by done.
  unfold processRow. simpl. unfold processEventPair.
  by apply (processEvents_expired Date_parse eventCard displayedInstant
              timerIds now chunk).
Qed.

(** X23: when the cards and the wrappers are never the empty string,
    [processEvents] returns the empty string exactly when there is no
    event that has not expired, and then it leaves the page as it was:
    no timer is set up. *)
Theorem events_section_empty_iff currentEvents timerIds now st :
  (∀ eventNum ev, eventCard eventNum ev ≠ "") →
  (∀ s, row s ≠ "") →
  (∀ s, cell s ≠ "") →
  (eventsCell
     (processEvents Date_parse eventCard displayedInstant row cell
        currentEvents timerIds now st) = ""
   ↔ Forall (λ entry, hasExpired Date_parse now (end_ entry.2) = true) (default [] currentEvents))
  ∧ (Forall (λ entry, hasExpired Date_parse now (end_ entry.2) = true) (default [] currentEvents) →
     after (processEvents Date_parse eventCard displayedInstant row cell
              currentEvents timerIds now st) = st).
Proof.
  intros Hcard Hrow Hcell.
  destruct currentEvents as [[|a entries]|]; [by split | | by split].
  set (all := a :: entries). unfold processEvents. cbn [default].
  fold all.
  pose proof (rows_empty timerIds now (pairs all)
                {| eventsCell := ""; logged := []; after := st |} Hcard Hrow)
    as Hrows.
  rewrite <- Forall_concat, concat_pairs in Hrows.
  split.
  - cbn [eventsCell].
    destruct (String.eqb_spec
                (eventsCell
                   (foldl (processRow Date_parse eventCard displayedInstant row timerIds now)
                      {| eventsCell := ""; logged := []; after := st |} (pairs all)))
                "") as [E|E].
    + split; [|done]. intros _. by apply Hrows.
    + split; [by intros Hc; destruct (Hcell _ Hc)|].
      intros Hall. destruct E. apply Hrows. by split.
  - intros Hall. cbn [after]. rewrite rows_expired; [done|].
    apply Forall_concat. by rewrite concat_pairs.
Qed.

End Rendering.

Lemma events_section_empty_iff_witness :
  eventsCell
    (processEvents no_dates plain_card (λ _, 0%Z)
       (λ s, "<div>" +:+ s) (λ s, "<td>" +:+ s)
       (Some [("801", ended_at 1700000000); ("802", ended_at 1600000000)])
       0 1700000000000 (page_with "x"))
  = "".
Proof.
  apply (events_section_empty_iff no_dates plain_card (λ _, 0%Z)
           (λ s, "<div>" +:+ s) (λ s, "<td>" +:+ s)
           (Some [("801", ended_at 1700000000); ("802", ended_at 1600000000)])
           0 1700000000000 (page_with "x")).
  - done.
  - done.
  - done.
  - by repeat constructor.
Defined.

End EventsMore.

(** ** Performance samples *)

Section MetricsMore.

Import Birthday EventsView.

Context {A : Type}.

Implicit Types (pm : gmap string (metric A)) (l durations : list A).

Lemma record_step metricName maxSamples pm l d :
  pm !! "maxSamples" = Some (Setting (Z.of_nat maxSamples)) →
  pm !! metricName = Some (Samples l) →
  (length l ≤ maxSamples)%nat →
  recordPerformanceMetric metricName d pm
  = Ok (<[metricName := Samples (drop (length (l ++ [d]) - maxSamples) (l ++ [d]))]> pm)
  ∧ (length (drop (length (l ++ [d]) - maxSamples) (l ++ [d])) ≤ maxSamples)%nat.
Proof.
  intros Hmax Hl Hlen. unfold recordPerformanceMetric. rewrite Hl, Hmax.
  rewrite length_drop, !length_app. simpl. split; [|lia].
  destruct (Z.ltb_spec (Z.of_nat maxSamples) (Z.of_nat (length l + 1))) as [Hlt|Hge].
  - replace (length l + 1 - maxSamples)%nat with 1%nat by lia.
    by destruct l.
  - by replace (length l + 1 - maxSamples)%nat with 0%nat by lia.
Qed.

(** X24: the samples kept under a metric are a sliding window: when the
    list holds at most [maxSamples] values, recording further durations
    succeeds and leaves exactly the last [maxSamples] values of the old
    list followed by the new durations, in order; the other fields of
    [performanceMetrics] are not changed. *)
Theorem metric_window metricName maxSamples durations pm l :
  pm !! "maxSamples" = Some (Setting (Z.of_nat maxSamples)) →
  pm !! metricName = Some (Samples l) →
  (length l ≤ maxSamples)%nat →
  ∃ pm',
    recordAll metricName durations pm = Ok pm'
    ∧ pm' !! metricName
      = Some (Samples (drop (length (l ++ durations) - maxSamples) (l ++ durations)))
    ∧ ∀ other, other ≠ metricName → pm' !! other = pm !! other.
Proof.
  revert pm l. induction durations as [|d durations IH]; intros pm l Hmax Hl Hlen.
  { exists pm. rewrite app_nil_r. split_and!; [done| |done].
    by replace (length l - maxSamples)%nat with 0%nat by lia. }
  assert (metricName ≠ "maxSamples") as Hne by (intros ->; congruence).
  destruct (record_step metricName maxSamples pm l d Hmax Hl Hlen) as [Hstep Hlen'].
  cbn [recordAll]. rewrite Hstep.
  destruct (IH (<[metricName := Samples (drop (length (l ++ [d]) - maxSamples) (l ++ [d]))]> pm)
              (drop (length (l ++ [d]) - maxSamples) (l ++ [d])))
    as (pm' & Hrun & Hkept & Hothers).
  - by rewrite lookup_insert_ne.
  - by rewrite lookup_insert_eq.
  - done.
  - exists pm'. split_and!; [done| |].
    + rewrite Hkept. do 2 f_equal.
      rewrite <- drop_app_le by (rewrite length_app; simpl; lia).
      rewrite <- (assoc_L (++) l [d] durations). simpl.
      rewrite drop_drop. f_equal.
      rewrite ?length_drop, ?length_app. simpl. lia.
    + intros other Hother. rewrite Hothers by done. by rewrite lookup_insert_ne.
Qed.

End MetricsMore.

Section MetricsExamples.

Import Birthday EventsView.

Lemma metric_window_witness :
  ∃ pm',
    recordAll "displayTimes" [30; 40; 50]%Z
      {[ "maxSamples" := Setting 3; "displayTimes" := Samples [10; 20]%Z ]} = Ok pm'
    ∧ pm' !! "displayTimes" = Some (Samples [30; 40; 50]%Z).
Proof.
  destruct (metric_window "displayTimes" 3 [30; 40; 50]%Z
              {[ "maxSamples" := Setting 3; "displayTimes" := Samples [10; 20]%Z ]}
              [10; 20]%Z)
    as (pm' & Hrun & Hkept & _); [reflexivity | reflexivity | simpl; lia |].
  by exists pm'.
Defined.

End MetricsExamples.
